(** * linestore: an append-only line store with a fixed-width offset index

    A shallow embedding of [store/store.go] and the properties its
    specification states about it.

    - The file system is a finite map from paths to byte strings.
    - An open [*os.File] is a value carrying the path it was opened at, its
      offset, whether it was opened with [O_APPEND] and whether it has been
      closed.  The store is the exclusive owner of its two handles, so the
      handles are fields of the [Store] record and are threaded through
      every method together with the file system.
    - Reads, writes and seeks fail exactly when the map says so: end of
      file, a negative or overflowing offset, a file that would outgrow the
      largest [int64] offset, a closed handle, a missing path.  What
      [close(2)] reports is not determined by file contents; it is taken
      from the oracle [close_result] of the section below.
    - The reader/writer lock only serialises calls; every method is modelled
      as one atomic step. *)

From Stdlib Require Import ZArith Lia List String.
From stdpp Require Import base gmap list strings.
From coqutil Require Import Byte LittleEndianList.
Import ListNotations.
Open Scope Z_scope.

(** ** Errors *)

(** Errors of the I/O layer ([io.EOF], [io.ErrUnexpectedEOF], [os.ErrClosed]
    and the errno values the calls below can meet). *)
Inductive ioerr : Type :=
| EOF | ErrUnexpectedEOF | ErrClosed
| EINVAL | EOVERFLOW | ENOENT | EBADF | EFBIG
| EIO (code : Z).

(** [fmt.Errorf(format, args...)]: the format string of the call site and
    its integer arguments in order. [Wrapf] is a call whose format ends in
    [%v] and whose last argument is the error [cause]. [IOError] is an error
    of the I/O layer returned as it is. *)
Inductive error : Type :=
| IOError (e : ioerr)
| Errorf (format : string) (args : list Z)
| Wrapf (format : string) (args : list Z) (cause : error).

Inductive res (E A : Type) : Type :=
| Ok (a : A)
| Err (e : E).
Arguments Ok {E A} a.
Arguments Err {E A} e.

(** ** Machine integers *)

Definition uint32 (z : Z) : Z := z mod 2 ^ 32.
Definition uint64 (z : Z) : Z := z mod 2 ^ 64.
Definition int64 (z : Z) : Z := (z + 2 ^ 63) mod 2 ^ 64 - 2 ^ 63.

(** The largest file offset ([math.MaxInt64]). *)
Definition max_off : Z := 2 ^ 63 - 1.

Definition len {A} (l : list A) : Z := Z.of_nat (length l).

(** ** Files *)

Record File : Type := mkFile {
  name : string;      (* the path the handle was opened at *)
  pos : Z;            (* current offset *)
  append : bool;      (* opened with O_APPEND *)
  closed : bool
}.

Definition with_pos (p : Z) (f : File) : File :=
  mkFile (name f) p (append f) (closed f).

Inductive whence : Type := SeekStart | SeekCurrent | SeekEnd.

(** [os.OpenFile(path, O_RDWR | flags, 0666)]. *)
Definition OpenFile (path : string) (create trunc app : bool)
    (fs : gmap string (list byte)) : res ioerr (File * gmap string (list byte)) :=
  match fs !! path with
  | Some _ =>
      Ok (mkFile path 0 app false, if trunc then <[path := []]> fs else fs)
  | None =>
      if create then Ok (mkFile path 0 app false, <[path := []]> fs)
      else Err ENOENT
  end.

(** [f.Seek(off, whence)]; seeking past the end of the file is allowed. *)
Definition Seek (off : Z) (w : whence) (f : File)
    (fs : gmap string (list byte)) : res ioerr (Z * File) :=
  if closed f then Err ErrClosed else
  match fs !! name f with
  | None => Err EBADF
  | Some c =>
      let base := match w with
                  | SeekStart => 0
                  | SeekCurrent => pos f
                  | SeekEnd => len c
                  end in
      let p := base + off in
      if p <? 0 then Err EINVAL
      else if max_off <? p then Err EOVERFLOW
      else Ok (p, with_pos p f)
  end.

(** [io.ReadFull(f, buf)] with [len(buf) = n]: the number of bytes read, the
    bytes or the error, and the handle. A zero-length buffer succeeds without
    touching the file; no byte at all is [EOF], fewer than [n] is
    [ErrUnexpectedEOF]. *)
Definition ReadFull (n : Z) (f : File) (fs : gmap string (list byte))
    : Z * res ioerr (list byte) * File :=
  if n <=? 0 then (0, Ok [], f) else
  if closed f then (0, Err ErrClosed, f) else
  match fs !! name f with
  | None => (0, Err EBADF, f)
  | Some c =>
      let avail := drop (Z.to_nat (pos f)) c in
      if len avail =? 0 then (0, Err EOF, f)
      else if len avail <? n then
        (len avail, Err ErrUnexpectedEOF, with_pos (pos f + len avail) f)
      else (n, Ok (take (Z.to_nat n) avail), with_pos (pos f + n) f)
  end.

(** [binary.Read(f, binary.LittleEndian, &v)] for an unsigned [v] of [size]
    bytes. *)
Definition binary_Read (size : Z) (f : File) (fs : gmap string (list byte))
    : res ioerr Z * File :=
  match ReadFull size f fs with
  | (_, Ok bs, f') => (Ok (le_combine bs), f')
  | (_, Err e, f') => (Err e, f')
  end.

(** The contents of a file after [data] is written at offset [at_]. *)
Definition splice (at_ : Z) (data c : list byte) : list byte :=
  take (Z.to_nat at_) c ++ replicate (Z.to_nat at_ - length c) Byte.x00
    ++ data ++ drop (Z.to_nat at_ + length data) c.

(** [f.Write(data)]: at the end of the file for an [O_APPEND] handle, at the
    handle's offset otherwise. *)
Definition Write (data : list byte) (f : File) (fs : gmap string (list byte))
    : res ioerr (File * gmap string (list byte)) :=
  if closed f then Err ErrClosed else
  match fs !! name f with
  | None => Err EBADF
  | Some c =>
      if len data =? 0 then Ok (f, fs) else
      let at_ := if append f then len c else pos f in
      if max_off <? at_ + len data then Err EFBIG
      else Ok (with_pos (at_ + len data) f, <[name f := splice at_ data c]> fs)
  end.

(** [f.Sync()]. *)
Definition Sync (f : File) (fs : gmap string (list byte)) : option ioerr :=
  if closed f then Some ErrClosed else
  match fs !! name f with
  | None => Some EBADF
  | Some _ => None
  end.

(** [f.Stat()] followed by [.Size()]. *)
Definition Stat_Size (f : File) (fs : gmap string (list byte)) : res ioerr Z :=
  if closed f then Err ErrClosed else
  match fs !! name f with
  | None => Err EBADF
  | Some c => Ok (len c)
  end.

(** [io.Copy(dst, src)]: everything from the offset of [src] to its end is
    written to [dst]; an empty remainder writes nothing. Returns both handles
    and the file system. *)
Definition Copy (dst src : File) (fs : gmap string (list byte))
    : res ioerr (File * File * gmap string (list byte)) :=
  if closed src then Err ErrClosed else
  match fs !! name src with
  | None => Err EBADF
  | Some c =>
      let avail := drop (Z.to_nat (pos src)) c in
      let src' := with_pos (pos src + len avail) src in
      if len avail =? 0 then Ok (dst, src, fs) else
      match Write avail dst fs with
      | Err e => Err e
      | Ok (dst', fs') => Ok (dst', src', fs')
      end
  end.

(** [os.Rename(old, new)]. *)
Definition Rename (old new : string) (fs : gmap string (list byte))
    : res ioerr (gmap string (list byte)) :=
  match fs !! old with
  | None => Err ENOENT
  | Some c => Ok (<[new := c]> (delete old fs))
  end.

(** ** The store *)

Record Store : Type := mkStore {
  file : File;        (* handle of the data file *)
  indexFile : File;   (* handle of the index file *)
  lineCount : Z       (* total lines written (uint64) *)
}.

Definition with_file (f : File) (s : Store) : Store :=
  mkStore f (indexFile s) (lineCount s).
Definition with_indexFile (f : File) (s : Store) : Store :=
  mkStore (file s) f (lineCount s).
Definition with_lineCount (n : Z) (s : Store) : Store :=
  mkStore (file s) (indexFile s) n.

(** The record [Set] and [Polish] build: tag 0, little-endian 32-bit length,
    payload. [valLen] is already a [uint32]. *)
Definition make_record (valLen : Z) (value : list byte) : list byte :=
  [Byte.x00] ++ le_split 4 valLen ++ value.

(** The 16-byte index entry: line number and data offset, both [uint64]. *)
Definition make_indexEntry (lineNum dataOffset : Z) : list byte :=
  le_split 8 lineNum ++ le_split 8 (uint64 dataOffset).

(** The scan of [countLines]: [for { ... }] until the type byte read meets
    [io.EOF]. The payload is skipped with [Seek(valLen, io.SeekCurrent)].
    [fuel] bounds the iterations; [None] is an exhausted bound. *)
Fixpoint countLines_loop (fuel : nat) (lineNum : Z) (f : File)
    (fs : gmap string (list byte)) : option (res error Z * File) :=
  match fuel with
  | O => None
  | S fuel' =>
      match binary_Read 1 f fs with
      | (Err EOF, f1) => Some (Ok lineNum, f1)
      | (Err e, f1) =>
          Some (Err (Wrapf "failed to read type byte: %v" [] (IOError e)), f1)
      | (Ok typeByte, f1) =>
          if negb (typeByte =? 0) then
            Some (Err (Errorf "invalid record type %d at line %d"
                         [typeByte; lineNum]), f1)
          else
            match binary_Read 4 f1 fs with
            | (Err e, f2) =>
                Some (Err (Wrapf "failed to read value length: %v" []
                             (IOError e)), f2)
            | (Ok valLen, f2) =>
                match Seek (int64 valLen) SeekCurrent f2 fs with
                | Err e =>
                    Some (Err (Wrapf "failed to skip value: %v" []
                                 (IOError e)), f2)
                | Ok (_, f3) =>
                    countLines_loop fuel' (uint64 (lineNum + 1)) f3 fs
                end
            end
      end
  end.

(** [countLines]: scan the data file, set [lineCount], check the size of the
    index file. Every pass of the scan that goes on has read a type byte, so
    one more pass than the file has bytes always suffices. *)
Definition countLines (s : Store) (fs : gmap string (list byte))
    : option (option error * Store) :=
  match Seek 0 SeekStart (file s) fs with
  | Err e => Some (Some (IOError e), s)
  | Ok (_, f0) =>
      match countLines_loop (S (length (default [] (fs !! name f0)))) 0 f0 fs with
      | None => None
      | Some (Err e, f1) => Some (Some e, with_file f1 s)
      | Some (Ok lineNum, f1) =>
          let s := with_lineCount lineNum (with_file f1 s) in
          match Stat_Size (indexFile s) fs with
          | Err e =>
              Some (Some (Wrapf "failed to stat index file: %v" [] (IOError e)), s)
          | Ok size =>
              let expectedSize := int64 (uint64 (lineCount s * 16)) in
              if negb (size =? expectedSize) then
                Some (Some (Errorf "index file size %d does not match expected %d"
                              [size; expectedSize]), s)
              else Some (None, s)
          end
      end
  end.

(** [NewStore]: open (creating if absent) the data file and the index file at
    [path ++ ".idx"], then [countLines]. On failure the handles are closed and
    dropped. *)
Definition NewStore (path : string) (fs : gmap string (list byte))
    : option (res error Store * gmap string (list byte)) :=
  match OpenFile path true false true fs with
  | Err e => Some (Err (Wrapf "failed to open data file: %v" [] (IOError e)), fs)
  | Ok (file, fs1) =>
      let indexPath := path +:+ ".idx" in
      match OpenFile indexPath true false true fs1 with
      | Err e =>
          Some (Err (Wrapf "failed to open index file: %v" [] (IOError e)), fs1)
      | Ok (indexFile, fs2) =>
          let store := mkStore file indexFile 0 in
          match countLines store fs2 with
          | None => None
          | Some (Some e, _) =>
              Some (Err (Wrapf "failed to count lines: %v" [] e), fs2)
          | Some (None, store) => Some (Ok store, fs2)
          end
      end
  end.

(** [Set]: append the record to the data file, then its index entry to the
    index file, then count it. *)
Definition Store_Set (value : list byte) (s : Store)
    (fs : gmap string (list byte))
    : res error Z * Store * gmap string (list byte) :=
  let record := make_record (uint32 (len value)) value in
  match Seek 0 SeekEnd (file s) fs with
  | Err e =>
      (Err (Wrapf "failed to seek to end of data file: %v" [] (IOError e)), s, fs)
  | Ok (dataOffset, f1) =>
      let s := with_file f1 s in
      match Write record (file s) fs with
      | Err e => (Err (Wrapf "failed to write record: %v" [] (IOError e)), s, fs)
      | Ok (f2, fs1) =>
          let s := with_file f2 s in
          match Sync (file s) fs1 with
          | Some e =>
              (Err (Wrapf "failed to sync data file: %v" [] (IOError e)), s, fs1)
          | None =>
              let lineNum := lineCount s in
              let indexEntry := make_indexEntry lineNum dataOffset in
              match Write indexEntry (indexFile s) fs1 with
              | Err e =>
                  (Err (Wrapf "failed to write index entry: %v" [] (IOError e)),
                   s, fs1)
              | Ok (i1, fs2) =>
                  let s := with_indexFile i1 s in
                  match Sync (indexFile s) fs2 with
                  | Some e =>
                      (Err (Wrapf "failed to sync index file: %v" []
                              (IOError e)), s, fs2)
                  | None =>
                      (Ok lineNum,
                       with_lineCount (uint64 (lineCount s + 1)) s, fs2)
                  end
              end
          end
      end
  end.

(** The decode sequence that [Get], [List], [ListAllReverse] and [Polish]
    each spell out at the current offset of the data file: type byte (must
    be 0), length (at most [1<<20]), payload. Returns the length and the
    payload. *)
Definition read_record (line : Z) (f : File) (fs : gmap string (list byte))
    : res error (Z * list byte) * File :=
  match binary_Read 1 f fs with
  | (Err e, f1) =>
      (Err (Wrapf "failed to read type byte at line %d: %v" [line] (IOError e)),
       f1)
  | (Ok typeByte, f1) =>
      if negb (typeByte =? 0) then
        (Err (Errorf "invalid record type %d at line %d" [typeByte; line]), f1)
      else
        match binary_Read 4 f1 fs with
        | (Err e, f2) =>
            (Err (Wrapf "failed to read value length at line %d: %v" [line]
                    (IOError e)), f2)
        | (Ok valLen, f2) =>
            if 2 ^ 20 <? valLen then
              (Err (Errorf "invalid value length %d at line %d" [valLen; line]),
               f2)
            else
              match ReadFull valLen f2 fs with
              | (n, Err e, f3) =>
                  (Err (Wrapf
                          "failed to read value at line %d (read %d/%d bytes): %v"
                          [line; n; valLen] (IOError e)), f3)
              | (_, Ok value, f3) => (Ok (valLen, value), f3)
              end
        end
  end.

(** The lookup that [Get] and [ListAllReverse] each spell out: read the index
    entry at [line * 16], seek the data file to the offset it holds, decode
    the record there. *)
Definition read_line (line : Z) (s : Store) (fs : gmap string (list byte))
    : res error (list byte) * Store :=
  let indexOffset := int64 (uint64 (line * 16)) in
  match Seek indexOffset SeekStart (indexFile s) fs with
  | Err e =>
      (Err (Wrapf "failed to seek to index offset %d: %v" [indexOffset]
              (IOError e)), s)
  | Ok (_, i1) =>
      let s := with_indexFile i1 s in
      match ReadFull 16 (indexFile s) fs with
      | (_, Err e, i2) =>
          (Err (Wrapf "failed to read index entry for line %d: %v" [line]
                  (IOError e)), with_indexFile i2 s)
      | (_, Ok indexEntry, i2) =>
          let s := with_indexFile i2 s in
          let dataOffset := le_combine (drop 8 indexEntry) in
          match Seek (int64 dataOffset) SeekStart (file s) fs with
          | Err e =>
              (Err (Wrapf "failed to seek to data offset %d: %v" [dataOffset]
                      (IOError e)), s)
          | Ok (_, f1) =>
              match read_record line f1 fs with
              | (Err e, f2) => (Err e, with_file f2 s)
              | (Ok (_, value), f2) => (Ok value, with_file f2 s)
              end
          end
      end
  end.

(** [Get]. *)
Definition Store_Get (line : Z) (s : Store) (fs : gmap string (list byte))
    : res error (list byte) * Store :=
  if lineCount s <=? line then
    (Err (Errorf "line %d exceeds total lines %d" [line; lineCount s]), s)
  else read_line line s fs.

(** The loop of [List]: [n] passes are left, the next one is for [lineNum]. *)
Fixpoint List_loop (n : nat) (lineNum : Z) (result : list (Z * list byte))
    (f : File) (fs : gmap string (list byte))
    : res error (list (Z * list byte)) * File :=
  match n with
  | O => (Ok result, f)
  | S n' =>
      match read_record lineNum f fs with
      | (Err e, f1) => (Err e, f1)
      | (Ok (_, value), f1) =>
          List_loop n' (lineNum + 1) (result ++ [(lineNum, value)]) f1 fs
      end
  end.

(** [List]. *)
Definition Store_List (s : Store) (fs : gmap string (list byte))
    : res error (list (Z * list byte)) * Store :=
  match Seek 0 SeekStart (file s) fs with
  | Err e => (Err (Wrapf "failed to seek to start: %v" [] (IOError e)), s)
  | Ok (_, f0) =>
      match List_loop (Z.to_nat (lineCount s)) 0 [] f0 fs with
      | (r, f1) => (r, with_file f1 s)
      end
  end.

(** The loop of [ListAllReverse]: the pass for [lineNum], then the passes
    below it; it leaves after the pass for line 0. *)
Fixpoint ListAllReverse_loop (lineNum : nat) (result : list (Z * list byte))
    (s : Store) (fs : gmap string (list byte))
    : res error (list (Z * list byte)) * Store :=
  match read_line (Z.of_nat lineNum) s fs with
  | (Err e, s1) => (Err e, s1)
  | (Ok value, s1) =>
      let result := result ++ [(Z.of_nat lineNum, value)] in
      match lineNum with
      | O => (Ok result, s1)
      | S lineNum' => ListAllReverse_loop lineNum' result s1 fs
      end
  end.

(** [ListAllReverse]. *)
Definition Store_ListAllReverse (s : Store) (fs : gmap string (list byte))
    : res error (list (Z * list byte)) * Store :=
  if lineCount s =? 0 then (Ok [], s)
  else ListAllReverse_loop (Z.to_nat (lineCount s - 1)) [] s fs.

(** [GetLastLine]. *)
Definition Store_GetLastLine (s : Store) : res error Z :=
  if lineCount s =? 0 then Err (Errorf "store is empty" [])
  else Ok (lineCount s - 1).

(** [backupTo]: copy the data file to [path] and the index file to
    [path ++ ".idx"], each opened with [O_CREATE|O_TRUNC]. [polished] is a
    parameter the body never reads. The two deferred [Close] calls drop
    their results and the handles are local, so they leave no trace here. *)
Definition Store_backupTo (path : string) (polished : bool) (s : Store)
    (fs : gmap string (list byte))
    : option error * Store * gmap string (list byte) :=
  match OpenFile path true true false fs with
  | Err e => (Some (Wrapf "failed to create backup file: %v" [] (IOError e)), s, fs)
  | Ok (backupFile, fs1) =>
      match Seek 0 SeekStart (file s) fs1 with
      | Err e => (Some (Wrapf "failed to seek to start: %v" [] (IOError e)), s, fs1)
      | Ok (_, f1) =>
          let s := with_file f1 s in
          match Copy backupFile (file s) fs1 with
          | Err e =>
              (Some (Wrapf "failed to copy data file: %v" [] (IOError e)), s, fs1)
          | Ok (backupFile, f2, fs2) =>
              let s := with_file f2 s in
              match Sync backupFile fs2 with
              | Some e =>
                  (Some (Wrapf "failed to sync backup file: %v" [] (IOError e)),
                   s, fs2)
              | None =>
                  let backupIndexPath := path +:+ ".idx" in
                  match OpenFile backupIndexPath true true false fs2 with
                  | Err e =>
                      (Some (Wrapf "failed to create backup index file: %v" []
                               (IOError e)), s, fs2)
                  | Ok (backupIndexFile, fs3) =>
                      match Seek 0 SeekStart (indexFile s) fs3 with
                      | Err e =>
                          (Some (Wrapf "failed to seek to start of index file: %v"
                                   [] (IOError e)), s, fs3)
                      | Ok (_, i1) =>
                          let s := with_indexFile i1 s in
                          match Copy backupIndexFile (indexFile s) fs3 with
                          | Err e =>
                              (Some (Wrapf "failed to copy index file: %v" []
                                       (IOError e)), s, fs3)
                          | Ok (backupIndexFile, i2, fs4) =>
                              let s := with_indexFile i2 s in
                              match Sync backupIndexFile fs4 with
                              | Some e =>
                                  (Some (Wrapf
                                           "failed to sync backup index file: %v"
                                           [] (IOError e)), s, fs4)
                              | None => (None, s, fs4)
                              end
                          end
                      end
                  end
              end
          end
      end
  end.

(** [Backup]. *)
Definition Store_Backup (path : string) (polished : bool) (s : Store)
    (fs : gmap string (list byte))
    : option error * Store * gmap string (list byte) :=
  Store_backupTo path polished s fs.

(** The loop of [Polish]: [n] passes are left, the next one is for line [i];
    [f] is the live data file, read in order. *)
Fixpoint Polish_loop (n : nat) (i newLine : Z) (f tempFile tempIndexFile : File)
    (fs : gmap string (list byte))
    : res error Z * File * gmap string (list byte) :=
  match n with
  | O => (Ok newLine, f, fs)
  | S n' =>
      match read_record i f fs with
      | (Err e, f1) => (Err e, f1, fs)
      | (Ok (valLen, value), f1) =>
          let record := make_record valLen value in
          match Seek 0 SeekCurrent tempFile fs with
          | Err e =>
              (Err (Wrapf "failed to get temp data offset: %v" [] (IOError e)),
               f1, fs)
          | Ok (dataOffset, tempFile) =>
              match Write record tempFile fs with
              | Err e =>
                  (Err (Wrapf "failed to write polished record: %v" []
                          (IOError e)), f1, fs)
              | Ok (tempFile, fs1) =>
                  let indexEntry := make_indexEntry newLine dataOffset in
                  match Write indexEntry tempIndexFile fs1 with
                  | Err e =>
                      (Err (Wrapf "failed to write polished index entry: %v" []
                              (IOError e)), f1, fs1)
                  | Ok (tempIndexFile, fs2) =>
                      Polish_loop n' (i + 1) (uint64 (newLine + 1)) f1
                        tempFile tempIndexFile fs2
                  end
              end
          end
      end
  end.

Section Closing.

(** What [close(2)] reports for an open handle on the file at a path. *)
Variable close_result : string -> option ioerr.

(** [f.Close()]: the handle is closed whatever the system call reports. *)
Definition File_Close (f : File) : option ioerr * File :=
  if closed f then (Some ErrClosed, f)
  else (close_result (name f), mkFile (name f) (pos f) (append f) true).

(** [Polish]: back up, rewrite both files into temporaries, close the live
    handles, rename the temporaries over the live paths, reopen. The handles
    of the temporaries are local; their deferred [Close] drops its result. *)
Definition Store_Polish (s : Store) (fs : gmap string (list byte))
    : option error * Store * gmap string (list byte) :=
  let origPath := name (file s) in
  let backupPath := origPath +:+ ".backup" in
  match Store_backupTo backupPath false s fs with
  | (Some e, s, fs) =>
      (Some (Wrapf "failed to create backup before polish: %v" [] e), s, fs)
  | (None, s, fs) =>
  let tempPath := origPath +:+ ".tmp" in
  match OpenFile tempPath true true false fs with
  | Err e =>
      (Some (Wrapf "failed to create temp data file: %v" [] (IOError e)), s, fs)
  | Ok (tempFile, fs) =>
  let tempIndexPath := origPath +:+ ".idx.tmp" in
  match OpenFile tempIndexPath true true false fs with
  | Err e =>
      (Some (Wrapf "failed to create temp index file: %v" [] (IOError e)), s, fs)
  | Ok (tempIndexFile, fs) =>
  match Seek 0 SeekStart (file s) fs with
  | Err e => (Some (Wrapf "failed to seek to start: %v" [] (IOError e)), s, fs)
  | Ok (_, f0) =>
  match Polish_loop (Z.to_nat (lineCount s)) 0 0 f0 tempFile tempIndexFile fs with
  | (Err e, f1, fs) => (Some e, with_file f1 s, fs)
  | (Ok newLine, f1, fs) =>
  let s := with_file f1 s in
  match Sync tempFile fs with
  | Some e =>
      (Some (Wrapf "failed to sync temp data file: %v" [] (IOError e)), s, fs)
  | None =>
  match Sync tempIndexFile fs with
  | Some e =>
      (Some (Wrapf "failed to sync temp index file: %v" [] (IOError e)), s, fs)
  | None =>
  match File_Close (file s) with
  | (Some e, f2) =>
      (Some (Wrapf "failed to close original data file: %v" [] (IOError e)),
       with_file f2 s, fs)
  | (None, f2) =>
  let s := with_file f2 s in
  match File_Close (indexFile s) with
  | (Some e, i2) =>
      (Some (Wrapf "failed to close original index file: %v" [] (IOError e)),
       with_indexFile i2 s, fs)
  | (None, i2) =>
  let s := with_indexFile i2 s in
  match Rename tempPath origPath fs with
  | Err e =>
      (Some (Wrapf "failed to replace original data file: %v" [] (IOError e)),
       s, fs)
  | Ok fs =>
  match Rename tempIndexPath (origPath +:+ ".idx") fs with
  | Err e =>
      (Some (Wrapf "failed to replace original index file: %v" [] (IOError e)),
       s, fs)
  | Ok fs =>
  match OpenFile origPath false false true fs with
  | Err e =>
      (Some (Wrapf "failed to reopen polished data file: %v" [] (IOError e)),
       s, fs)
  | Ok (f3, fs) =>
  let s := with_file f3 s in
  match OpenFile (origPath +:+ ".idx") false false true fs with
  | Err e =>
      (Some (Wrapf "failed to reopen polished index file: %v" [] (IOError e)),
       with_file (snd (File_Close (file s))) s, fs)
  | Ok (i3, fs) =>
      (None, with_lineCount newLine (with_indexFile i3 s), fs)
  end end end end end end end end end end end end end.

(** [Close]. *)
Definition Store_Close (s : Store) : option error * Store :=
  match File_Close (file s) with
  | (Some e, f1) =>
      (* Try to close index file even if data file fails *)
      let '(_, i1) := File_Close (indexFile s) in
      (Some (Wrapf "failed to close data file: %v" [] (IOError e)),
       with_indexFile i1 (with_file f1 s))
  | (None, f1) =>
      match File_Close (indexFile s) with
      | (Some e, i1) =>
          (Some (Wrapf "failed to close index file: %v" [] (IOError e)),
           with_indexFile i1 (with_file f1 s))
      | (None, i1) => (None, with_indexFile i1 (with_file f1 s))
      end
  end.

End Closing.

(** * Properties *)

(** ** Lengths and machine integers *)

Lemma len_nonneg {A} (l : list A) : 0 <= len l.
Proof. unfold len. lia. Qed.

Lemma len_app {A} (l k : list A) : len (l ++ k) = len l + len k.
Proof. unfold len. rewrite length_app. lia. Qed.

Lemma len_nil {A} : len (@nil A) = 0.
Proof. reflexivity. Qed.

Lemma len_cons {A} (x : A) (l : list A) : len (x :: l) = 1 + len l.
Proof. unfold len. simpl length. lia. Qed.

Lemma len_zero_nil {A} (l : list A) : len l = 0 -> l = [].
Proof. destruct l; [easy|]. unfold len. simpl. lia. Qed.

Lemma len_le_split (n : nat) (z : Z) : len (le_split n z) = Z.of_nat n.
Proof. unfold len. now rewrite length_le_split. Qed.

Lemma to_nat_len {A} (l : list A) : Z.to_nat (len l) = length l.
Proof. unfold len. lia. Qed.

Lemma uint32_small z : 0 <= z < 2 ^ 32 -> uint32 z = z.
Proof. intros. unfold uint32. now rewrite Z.mod_small. Qed.

Lemma uint64_small z : 0 <= z < 2 ^ 64 -> uint64 z = z.
Proof. intros. unfold uint64. now rewrite Z.mod_small. Qed.

Lemma int64_small z : 0 <= z <= max_off -> int64 z = z.
Proof.
  unfold int64, max_off. intros. rewrite Z.mod_small; lia.
Qed.

Lemma max_off_lt : max_off < 2 ^ 64.
Proof. unfold max_off. lia. Qed.

Lemma le_combine_le_split_4 z : 0 <= z < 2 ^ 32 -> le_combine (le_split 4 z) = z.
Proof. intros. rewrite le_combine_split. now rewrite Z.mod_small. Qed.

Lemma le_combine_le_split_8 z : 0 <= z < 2 ^ 64 -> le_combine (le_split 8 z) = z.
Proof. intros. rewrite le_combine_split. now rewrite Z.mod_small. Qed.

Lemma len_make_record v p : len (make_record v p) = 5 + len p.
Proof. unfold make_record. rewrite !len_app, len_le_split, len_cons, len_nil. lia. Qed.

Lemma len_make_indexEntry k off : len (make_indexEntry k off) = 16.
Proof. unfold make_indexEntry. rewrite len_app, !len_le_split. lia. Qed.

Create Rewrite HintDb len.
#[global] Hint Rewrite @len_app @len_cons @len_nil len_le_split
  len_make_record len_make_indexEntry : len.

(** ** Handles differing in their offset only *)

Definition same_file (f f' : File) : Prop :=
  name f' = name f /\ append f' = append f /\ closed f' = closed f.

Definition same_store (s s' : Store) : Prop :=
  same_file (file s) (file s') /\ same_file (indexFile s) (indexFile s')
  /\ lineCount s' = lineCount s.

Lemma same_file_refl f : same_file f f.
Proof. now repeat split. Qed.

Lemma same_file_trans f g h : same_file f g -> same_file g h -> same_file f h.
Proof. unfold same_file. intuition congruence. Qed.

Lemma same_file_with_pos p f : same_file f (with_pos p f).
Proof. now repeat split. Qed.

Lemma same_store_refl s : same_store s s.
Proof. repeat split. Qed.

Lemma same_store_trans s t u : same_store s t -> same_store t u -> same_store s u.
Proof.
  unfold same_store. intros (?&?&?) (?&?&?).
  repeat split; try congruence; eauto using same_file_trans.
  all: eapply same_file_trans; eauto.
Qed.

#[local] Hint Resolve same_file_refl same_file_with_pos same_store_refl : core.

Lemma Seek_same off w f fs p f' :
  Seek off w f fs = Ok (p, f') -> same_file f f'.
Proof.
  unfold Seek. repeat case_match; intros [= <- <-]; auto.
Qed.

Lemma ReadFull_same n f fs : same_file f (ReadFull n f fs).2.
Proof.
  unfold ReadFull. repeat case_match; simpl; auto.
Qed.

Lemma binary_Read_same n f fs : same_file f (binary_Read n f fs).2.
Proof.
  unfold binary_Read. pose proof (ReadFull_same n f fs).
  destruct (ReadFull n f fs) as [[? []] ?]; auto.
Qed.

Lemma read_record_same line f fs : same_file f (read_record line f fs).2.
Proof.
  unfold read_record.
  pose proof (binary_Read_same 1 f fs) as H1.
  destruct (binary_Read 1 f fs) as [[t|e] f1]; simpl in *; auto.
  destruct (negb (t =? 0)); simpl; auto.
  pose proof (binary_Read_same 4 f1 fs) as H2.
  destruct (binary_Read 4 f1 fs) as [[v|e] f2]; simpl in *;
    eauto using same_file_trans.
  destruct (2 ^ 20 <? v); simpl; eauto using same_file_trans.
  pose proof (ReadFull_same v f2 fs) as H3.
  destruct (ReadFull v f2 fs) as [[n [b|e]] f3]; simpl in *;
    eauto using same_file_trans.
Qed.

Lemma read_line_same line s fs : same_store s (read_line line s fs).2.
Proof.
  unfold read_line.
  destruct (Seek _ SeekStart (indexFile s) fs) as [[p i1]|e] eqn:E1; simpl; auto.
  apply Seek_same in E1.
  pose proof (ReadFull_same 16 i1 fs) as H2. simpl.
  destruct (ReadFull 16 i1 fs) as [[n [b|e]] i2]; simpl in *.
  2:{ repeat split; simpl; auto. all: eapply same_file_trans; eauto. }
  destruct (Seek _ SeekStart (file s) fs) as [[q f1]|e] eqn:E3; simpl.
  2:{ repeat split; simpl; auto. all: eapply same_file_trans; eauto. }
  apply Seek_same in E3.
  pose proof (read_record_same line f1 fs) as H4.
  destruct (read_record line f1 fs) as [[[v value]|e] f2]; simpl in *.
  all: repeat split; simpl; auto; eapply same_file_trans; eauto.
Qed.

(** ** The file primitives on known contents *)

Lemma drop_len_app {A} (pre l : list A) : drop (Z.to_nat (len pre)) (pre ++ l) = l.
Proof. rewrite to_nat_len. apply drop_app_length. Qed.

Lemma with_pos_pos f : with_pos (pos f) f = f.
Proof. now destruct f. Qed.

Lemma with_pos_id p f : pos f = p -> with_pos p f = f.
Proof. intros <-. apply with_pos_pos. Qed.

Lemma Seek_start_ok off f fs c :
  closed f = false -> fs !! name f = Some c -> 0 <= off <= max_off ->
  Seek off SeekStart f fs = Ok (off, with_pos off f).
Proof.
  intros Hc Hf Ho. unfold Seek. rewrite Hc, Hf. cbv zeta. rewrite Z.add_0_l.
  destruct (Z.ltb_spec off 0); [lia|].
  destruct (Z.ltb_spec max_off off); [lia|]. reflexivity.
Qed.

Lemma Seek_end_ok f fs c :
  closed f = false -> fs !! name f = Some c -> len c <= max_off ->
  Seek 0 SeekEnd f fs = Ok (len c, with_pos (len c) f).
Proof.
  intros Hc Hf Ho. unfold Seek. rewrite Hc, Hf. cbv zeta.
  pose proof (len_nonneg c). rewrite Z.add_0_r.
  destruct (Z.ltb_spec (len c) 0); [lia|].
  destruct (Z.ltb_spec max_off (len c)); [lia|]. reflexivity.
Qed.

Lemma ReadFull_ok bs pre post f fs c :
  closed f = false -> fs !! name f = Some c -> c = pre ++ bs ++ post ->
  pos f = len pre -> 0 < len bs ->
  ReadFull (len bs) f fs = (len bs, Ok bs, with_pos (pos f + len bs) f).
Proof.
  intros Hc Hf -> Hp Hn. unfold ReadFull. rewrite Hc, Hf, Hp, drop_len_app.
  destruct (Z.leb_spec (len bs) 0); [lia|].
  rewrite len_app. pose proof (len_nonneg post).
  destruct (Z.eqb_spec (len bs + len post) 0); [lia|].
  destruct (Z.ltb_spec (len bs + len post) (len bs)); [lia|].
  now rewrite to_nat_len, take_app_length.
Qed.

Lemma ReadFull_end n f fs c :
  closed f = false -> fs !! name f = Some c -> len c <= pos f -> 0 < n ->
  ReadFull n f fs = (0, Err EOF, f).
Proof.
  intros Hc Hf Hp Hn. unfold ReadFull. rewrite Hc, Hf.
  destruct (Z.leb_spec n 0); [lia|].
  rewrite drop_ge by (unfold len in Hp; lia). reflexivity.
Qed.

Lemma binary_Read_ok (k : nat) v pre post f fs c :
  closed f = false -> fs !! name f = Some c -> c = pre ++ le_split k v ++ post ->
  pos f = len pre -> (0 < k)%nat -> 0 <= v < 2 ^ (Z.of_nat k * 8) ->
  binary_Read (Z.of_nat k) f fs = (Ok v, with_pos (pos f + Z.of_nat k) f).
Proof.
  intros Hc Hf Hs Hp Hk Hv. unfold binary_Read.
  rewrite <- (len_le_split k v).
  erewrite ReadFull_ok; eauto; [|rewrite len_le_split; lia].
  rewrite le_combine_split, Z.mod_small; auto.
Qed.

Lemma Write_append_ok data f fs c :
  closed f = false -> append f = true -> fs !! name f = Some c ->
  0 < len data -> len c + len data <= max_off ->
  Write data f fs
  = Ok (with_pos (len c + len data) f, <[name f := c ++ data]> fs).
Proof.
  intros Hc Ha Hf Hn Hm. unfold Write. rewrite Hc, Hf, Ha.
  destruct (Z.eqb_spec (len data) 0); [lia|].
  destruct (Z.ltb_spec max_off (len c + len data)); [lia|].
  unfold splice. rewrite to_nat_len, firstn_all, Nat.sub_diag. simpl.
  rewrite drop_ge by lia. now rewrite app_nil_r.
Qed.

Lemma Write_append_big data f fs c :
  closed f = false -> append f = true -> fs !! name f = Some c ->
  0 < len data -> max_off < len c + len data ->
  Write data f fs = Err EFBIG.
Proof.
  intros Hc Ha Hf Hn Hm. unfold Write. rewrite Hc, Hf, Ha.
  destruct (Z.eqb_spec (len data) 0); [lia|].
  destruct (Z.ltb_spec max_off (len c + len data)); [|lia]. reflexivity.
Qed.

Lemma Write_end_ok data f fs c :
  closed f = false -> fs !! name f = Some c -> pos f = len c ->
  0 < len data -> len c + len data <= max_off ->
  Write data f fs
  = Ok (with_pos (len c + len data) f, <[name f := c ++ data]> fs).
Proof.
  intros Hc Hf Hp Hn Hm. unfold Write. rewrite Hc, Hf, Hp.
  destruct (Z.eqb_spec (len data) 0); [lia|].
  replace (if append f then len c else len c) with (len c) by now destruct (append f).
  destruct (Z.ltb_spec max_off (len c + len data)); [lia|].
  unfold splice. rewrite to_nat_len, firstn_all, Nat.sub_diag. simpl.
  rewrite drop_ge by lia. now rewrite app_nil_r.
Qed.

Lemma Sync_ok f fs c : closed f = false -> fs !! name f = Some c -> Sync f fs = None.
Proof. intros Hc Hf. unfold Sync. now rewrite Hc, Hf. Qed.

(** ** Decoding one record *)

(** Two results that differ in how the offset of the handle is written. *)
Ltac pos_eq :=
  unfold with_pos; simpl;
  repeat match goal with H : pos _ = _ |- _ => rewrite H end;
  repeat (f_equal; try lia).

(** Side conditions of the lemmas above: an open handle, the contents split
    at the handle's offset, arithmetic on lengths. *)
Ltac read_side :=
  first
    [ assumption
    | reflexivity
    | subst; rewrite <- ?app_assoc; reflexivity
    | cbn [pos name closed append with_pos];
      repeat match goal with H : pos _ = _ |- _ => rewrite H; clear H end;
      autorewrite with len; lia ].

(** At the start of a well-formed record, [read_record] returns its payload
    and stops after it, unless the payload is longer than [1<<20]: then it
    stops after the length with the invalid-length error. *)
Lemma read_record_spec line p pre post f fs c :
  closed f = false -> fs !! name f = Some c ->
  c = pre ++ make_record (len p) p ++ post ->
  pos f = len pre -> len p < 2 ^ 32 ->
  read_record line f fs
  = if 2 ^ 20 <? len p
    then (Err (Errorf "invalid value length %d at line %d" [len p; line]),
          with_pos (len pre + 5) f)
    else (Ok (len p, p), with_pos (len pre + 5 + len p) f).
Proof.
  intros Hc Hf Hs Hp Hl. pose proof (len_nonneg p) as Hp0.
  unfold read_record, make_record in *.
  change [Byte.x00] with (le_split 1 0) in Hs.
  change (binary_Read 1) with (binary_Read (Z.of_nat 1)).
  change (binary_Read 4) with (binary_Read (Z.of_nat 4)).
  rewrite (binary_Read_ok 1 0 pre (le_split 4 (len p) ++ p ++ post) f fs c)
    by read_side.
  rewrite Z.eqb_refl. cbn [negb].
  rewrite (binary_Read_ok 4 (len p) (pre ++ le_split 1 0) (p ++ post) _ fs c)
    by read_side.
  destruct (2 ^ 20 <? len p).
  { pos_eq. }
  destruct (Z.eq_dec (len p) 0) as [Hz|Hz].
  - rewrite Hz.
    apply len_zero_nil in Hz as ->.
    unfold ReadFull. simpl Z.leb. cbv iota. pos_eq.
  - rewrite (ReadFull_ok p (pre ++ le_split 1 0 ++ le_split 4 (len p)) post _ fs c)
      by read_side.
    pos_eq.
Qed.

(** ** Paths *)

Lemma path_app_cons (a : Ascii.ascii) (p q : string) :
  String a p +:+ q = String a (p +:+ q).
Proof. reflexivity. Qed.

Lemma path_app_nil_r (p : string) : p +:+ EmptyString = p.
Proof.
  induction p as [|a p IH]; [reflexivity|]. now rewrite path_app_cons, IH.
Qed.

Lemma path_app_assoc (p a b : string) : (p +:+ a) +:+ b = p +:+ (a +:+ b).
Proof.
  induction p as [|c p IH]; [reflexivity|]. now rewrite !path_app_cons, IH.
Qed.

Lemma path_app_inj (p a b : string) : p +:+ a = p +:+ b -> a = b.
Proof.
  induction p as [|c p IH]; intros H; [exact H|].
  rewrite !path_app_cons in H. injection H. auto.
Qed.

Lemma path_app_id_l (p a : string) : p +:+ a = p -> a = EmptyString.
Proof. intros H. apply (path_app_inj p). now rewrite path_app_nil_r. Qed.

Lemma path_length_app (a b : string) :
  String.length (a +:+ b) = (String.length a + String.length b)%nat.
Proof.
  induction a as [|c a IH]; [reflexivity|].
  rewrite path_app_cons. cbn [String.length]. now rewrite IH.
Qed.

Lemma path_app_inj_r (x y s : string) : x +:+ s = y +:+ s -> x = y.
Proof.
  revert y. induction x as [|a x IH]; intros [|b y] H.
  - reflexivity.
  - apply (f_equal String.length) in H.
    rewrite path_app_cons in H. cbn [String.length] in H.
    rewrite !path_length_app in H. cbn [String.length] in H. lia.
  - apply (f_equal String.length) in H.
    rewrite path_app_cons in H. cbn [String.length] in H.
    rewrite !path_length_app in H. cbn [String.length] in H. lia.
  - rewrite !path_app_cons in H. injection H as -> H. f_equal. auto.
Qed.

(** Two paths built from the same base by different literal suffixes. *)
Ltac path_ne :=
  let H := fresh in
  intros H;
  rewrite ?path_app_assoc in H;
  lazymatch type of H with
  | ?p +:+ _ = ?p +:+ _ => apply path_app_inj in H
  | ?p +:+ _ = ?p => apply path_app_id_l in H
  | ?p = ?p +:+ _ => symmetry in H; apply path_app_id_l in H
  end;
  vm_compute in H; discriminate H.

Lemma idx_path_ne (p : string) : p +:+ ".idx" <> p.
Proof. path_ne. Qed.

(** ** The files of a store built through its own operations *)

(** The data file holding the payloads [recs], in order. *)
Definition data_of (recs : list (list byte)) : list byte :=
  concat (map (fun p => make_record (len p) p) recs).

(** The index entries of [recs] when the first of them is line [k] and
    starts at offset [off]. *)
Fixpoint index_from (k off : Z) (recs : list (list byte)) : list byte :=
  match recs with
  | [] => []
  | p :: rest =>
      make_indexEntry k off ++ index_from (k + 1) (off + (5 + len p)) rest
  end.

Definition index_of (recs : list (list byte)) : list byte := index_from 0 0 recs.

Lemma data_of_app a b : data_of (a ++ b) = data_of a ++ data_of b.
Proof. unfold data_of. now rewrite map_app, concat_app. Qed.

Lemma data_of_cons p rest :
  data_of (p :: rest) = make_record (len p) p ++ data_of rest.
Proof. reflexivity. Qed.

Lemma index_from_app k off a b :
  index_from k off (a ++ b)
  = index_from k off a ++ index_from (k + len a) (off + len (data_of a)) b.
Proof.
  revert k off. induction a as [|p a IH]; intros k off.
  - simpl. now rewrite len_nil, !Z.add_0_r.
  - rewrite <- app_comm_cons. cbn [index_from].
    rewrite IH, <- app_assoc, data_of_cons. autorewrite with len.
    do 2 f_equal. f_equal; lia.
Qed.

Lemma len_index_from k off recs : len (index_from k off recs) = 16 * len recs.
Proof.
  revert k off. induction recs as [|p recs IH]; intros k off; cbn [index_from].
  - reflexivity.
  - rewrite len_app, IH, len_make_indexEntry, len_cons. lia.
Qed.

Lemma len_index_of recs : len (index_of recs) = 16 * len recs.
Proof. apply len_index_from. Qed.

Lemma index_of_snoc recs p :
  index_of (recs ++ [p])
  = index_of recs ++ make_indexEntry (len recs) (len (data_of recs)).
Proof.
  unfold index_of. rewrite index_from_app. cbn [index_from].
  now rewrite app_nil_r.
Qed.

Lemma data_of_snoc recs p :
  data_of (recs ++ [p]) = data_of recs ++ make_record (len p) p.
Proof.
  rewrite data_of_app. f_equal. unfold data_of. cbn [map concat].
  now rewrite app_nil_r.
Qed.

#[global] Hint Rewrite len_index_from len_index_of : len.

Lemma len_data_of_ge recs : 5 * len recs <= len (data_of recs).
Proof.
  induction recs as [|p recs IH].
  - reflexivity.
  - rewrite data_of_cons, len_app, len_make_record, len_cons.
    pose proof (len_nonneg p). lia.
Qed.

(** What [NewStore] establishes and every later operation relies on: both
    handles are open append handles, the index sits at the data path plus
    [".idx"], and the index file is [lineCount * 16] bytes long. *)
Record index_inv (s : Store) (fs : gmap string (list byte)) : Prop := {
  ii_open_f : closed (file s) = false;
  ii_open_i : closed (indexFile s) = false;
  ii_app_f : append (file s) = true;
  ii_app_i : append (indexFile s) = true;
  ii_name : name (indexFile s) = name (file s) +:+ ".idx";
  ii_data : exists d, fs !! name (file s) = Some d /\ len d <= max_off;
  ii_index : exists i, fs !! name (indexFile s) = Some i
                       /\ len i = lineCount s * 16 /\ len i <= max_off
}.

(** A store built by appending the payloads [recs] to a fresh store: the
    data file is their records back to back, the index file their entries,
    and every payload length fits the 32-bit length field. *)
Record store_inv (recs : list (list byte)) (s : Store)
    (fs : gmap string (list byte)) : Prop := {
  si_open_f : closed (file s) = false;
  si_open_i : closed (indexFile s) = false;
  si_app_f : append (file s) = true;
  si_app_i : append (indexFile s) = true;
  si_name : name (indexFile s) = name (file s) +:+ ".idx";
  si_data : fs !! name (file s) = Some (data_of recs);
  si_index : fs !! name (indexFile s) = Some (index_of recs);
  si_count : lineCount s = len recs;
  si_small : Forall (fun p => len p < 2 ^ 32) recs;
  si_data_max : len (data_of recs) <= max_off;
  si_index_max : 16 * len recs <= max_off
}.

Lemma store_inv_index_inv recs s fs : store_inv recs s fs -> index_inv s fs.
Proof.
  intros []. split; auto.
  - eauto.
  - exists (index_of recs). rewrite len_index_of. repeat split; auto; lia.
Qed.

Lemma index_inv_same s s' fs : index_inv s fs -> same_store s s' -> index_inv s' fs.
Proof.
  intros [] ((n1&a1&c1)&(n2&a2&c2)&Hl). split; try congruence.
  - rewrite n1. auto.
  - rewrite n2, Hl. auto.
Qed.

Lemma store_inv_same recs s s' fs :
  store_inv recs s fs -> same_store s s' -> store_inv recs s' fs.
Proof.
  intros [] ((n1&a1&c1)&(n2&a2&c2)&Hl). split; try congruence.
Qed.

Lemma index_inv_names s fs : index_inv s fs -> name (indexFile s) <> name (file s).
Proof. intros []. rewrite ii_name0. apply idx_path_ne. Qed.

(** ** Set *)

Ltac store_simpl :=
  cbn [file indexFile lineCount with_file with_indexFile with_lineCount
       with_pos name pos append closed fst snd].

Ltac names_ne :=
  store_simpl;
  first [ assumption | apply not_eq_sym; assumption | congruence | path_ne ].

(** A lookup in a file system built by insertions at other or the same
    path. *)
Ltac fs_lookup :=
  repeat first
    [ rewrite lookup_insert_eq
    | rewrite lookup_insert_ne by names_ne
    | rewrite lookup_delete_ne by names_ne
    | rewrite lookup_delete_eq ];
  first [ reflexivity | eassumption ].

(** Replace the first lookup of the goal by the contents [v] it finds. *)
Ltac fs_eval v :=
  match goal with
  | |- context [?m !! ?k] =>
      let H := fresh in
      assert (m !! k = Some v) as H by fs_lookup; rewrite H; clear H
  end.

Ltac io_side :=
  store_simpl; first [ assumption | reflexivity | fs_lookup | read_side ].

(** [Set] on a store with room left in both files. *)
Lemma Store_Set_ok P s fs d i :
  index_inv s fs ->
  fs !! name (file s) = Some d -> fs !! name (indexFile s) = Some i ->
  len d + (5 + len P) <= max_off -> len i + 16 <= max_off ->
  Store_Set P s fs
  = (Ok (lineCount s),
     mkStore (with_pos (len d + (5 + len P)) (file s))
       (with_pos (len i + 16) (indexFile s)) (lineCount s + 1),
     <[name (indexFile s) := i ++ make_indexEntry (lineCount s) (len d)]>
       (<[name (file s) := d ++ make_record (uint32 (len P)) P]> fs)).
Proof.
  intros Hinv Hd Hi Hdm Him.
  pose proof (index_inv_names _ _ Hinv) as Hne.
  destruct Hinv as [Hof Hoi Haf Hai Hn (d'&Hd'&Hdmax) (i'&Hi'&Hil&Himax)].
  assert (d' = d) as -> by congruence. assert (i' = i) as -> by congruence.
  pose proof (len_nonneg P). pose proof (len_nonneg d). pose proof (len_nonneg i).
  unfold Store_Set.
  rewrite (Seek_end_ok _ _ d) by auto. store_simpl.
  rewrite (Write_append_ok _ _ _ d) by io_side.
  store_simpl.
  rewrite (Sync_ok _ _ (d ++ make_record (uint32 (len P)) P)) by io_side.
  rewrite (Write_append_ok _ _ _ i) by io_side.
  store_simpl.
  rewrite (Sync_ok _ _ (i ++ make_indexEntry (lineCount s) (len d))) by io_side.
  rewrite uint64_small by (pose proof max_off_lt; lia).
  autorewrite with len. reflexivity.
Qed.

(** A [Set] that returned an ordinal had room in both files. *)
Lemma Store_Set_room P s fs d i n s' fs' :
  index_inv s fs ->
  fs !! name (file s) = Some d -> fs !! name (indexFile s) = Some i ->
  Store_Set P s fs = (Ok n, s', fs') ->
  len d + (5 + len P) <= max_off /\ len i + 16 <= max_off.
Proof.
  intros Hinv Hd Hi.
  pose proof (index_inv_names _ _ Hinv) as Hne.
  destruct Hinv as [Hof Hoi Haf Hai Hn (d'&Hd'&Hdmax) (i'&Hi'&Hil&Himax)].
  assert (d' = d) as -> by congruence. assert (i' = i) as -> by congruence.
  pose proof (len_nonneg P). pose proof (len_nonneg d). pose proof (len_nonneg i).
  unfold Store_Set.
  rewrite (Seek_end_ok _ _ d) by auto. store_simpl.
  destruct (Z_le_gt_dec (len d + (5 + len P)) max_off) as [Hdm|Hdm].
  2:{ rewrite (Write_append_big _ _ _ d) by io_side. discriminate. }
  rewrite (Write_append_ok _ _ _ d) by io_side.
  store_simpl.
  rewrite (Sync_ok _ _ (d ++ make_record (uint32 (len P)) P)) by io_side.
  destruct (Z_le_gt_dec (len i + 16) max_off) as [Him|Him].
  2:{ rewrite (Write_append_big _ _ _ i) by io_side. discriminate. }
  auto.
Qed.

(** [Set] keeps [index_inv]. *)
Lemma Store_Set_index_inv P s fs n s' fs' :
  index_inv s fs -> Store_Set P s fs = (Ok n, s', fs') -> index_inv s' fs'.
Proof.
  intros Hinv HS.
  pose proof (index_inv_names _ _ Hinv) as Hne.
  pose proof Hinv as [Hof Hoi Haf Hai Hn (d&Hd&Hdmax) (i&Hi&Hil&Himax)].
  destruct (Store_Set_room _ _ _ _ _ _ _ _ Hinv Hd Hi HS) as [Hdm Him].
  rewrite (Store_Set_ok _ _ _ _ _ Hinv Hd Hi Hdm Him) in HS.
  injection HS as <- <- <-.
  split; store_simpl; auto.
  - exists (d ++ make_record (uint32 (len P)) P).
    rewrite lookup_insert_ne, lookup_insert_eq by auto.
    split; [reflexivity|]. autorewrite with len. lia.
  - exists (i ++ make_indexEntry (lineCount s) (len d)).
    rewrite lookup_insert_eq. split; [reflexivity|].
    autorewrite with len. lia.
Qed.

(** ** Looking a line up through the index *)

Lemma drop_8_indexEntry k off :
  le_combine (drop 8 (make_indexEntry k off)) = uint64 off.
Proof.
  unfold make_indexEntry.
  rewrite drop_app_length' by now rewrite length_le_split.
  rewrite le_combine_split. unfold uint64. apply Z.mod_mod. lia.
Qed.

(** The index entry at [line * 16] points at a well-formed record holding
    [p]: the lookup returns [p], or the invalid-length error when [p] is
    longer than [1<<20]. *)
Lemma read_line_spec line off p ipre ipost pre post s fs ci cd :
  closed (file s) = false -> closed (indexFile s) = false ->
  fs !! name (indexFile s) = Some ci ->
  ci = ipre ++ make_indexEntry line off ++ ipost ->
  len ipre = line * 16 -> len ci <= max_off ->
  fs !! name (file s) = Some cd ->
  cd = pre ++ make_record (len p) p ++ post ->
  off = len pre -> len cd <= max_off -> len p < 2 ^ 32 ->
  (read_line line s fs).1
  = if 2 ^ 20 <? len p
    then Err (Errorf "invalid value length %d at line %d" [len p; line])
    else Ok p.
Proof.
  intros Hcf Hci Hi Hsi Hli Hmi Hd Hsd Hoff Hmd Hp.
  pose proof (len_nonneg ipre). pose proof (len_nonneg pre).
  pose proof (len_nonneg ipost). pose proof (len_nonneg post).
  pose proof (len_nonneg p). pose proof max_off_lt.
  assert (len ci = len ipre + 16 + len ipost) as Hlci
    by (rewrite Hsi; autorewrite with len; lia).
  assert (len cd = len pre + (5 + len p) + len post) as Hlcd
    by (rewrite Hsd; autorewrite with len; lia).
  unfold read_line.
  rewrite uint64_small, int64_small by lia.
  rewrite (Seek_start_ok _ _ _ ci) by (auto; lia). store_simpl.
  rewrite <- (len_make_indexEntry line off) at 1.
  rewrite (ReadFull_ok _ ipre ipost _ fs ci) by io_side.
  store_simpl. rewrite drop_8_indexEntry.
  rewrite uint64_small, int64_small by lia.
  rewrite (Seek_start_ok _ _ _ cd) by (auto; lia).
  rewrite (read_record_spec line p pre post _ fs cd) by io_side.
  now destruct (2 ^ 20 <? len p).
Qed.

(** ** Get *)

Lemma lookup_len_lt {A} (l : list A) (k : nat) (x : A) :
  l !! k = Some x -> Z.of_nat k < len l.
Proof. intros H%lookup_lt_Some. unfold len. lia. Qed.

(** The two files of a store built through its operations, split at line
    [k]. *)
Lemma index_of_split recs (k : nat) p :
  recs !! k = Some p ->
  index_of recs
  = index_of (take k recs)
    ++ make_indexEntry (Z.of_nat k) (len (data_of (take k recs)))
    ++ index_from (Z.of_nat k + 1)
         (len (data_of (take k recs)) + (5 + len p)) (drop (S k) recs).
Proof.
  intros Hk. pose proof (lookup_lt_Some _ _ _ Hk) as Hlt.
  rewrite <- (take_drop_middle _ _ _ Hk) at 1.
  assert (len (take k recs) = Z.of_nat k) as Hlen
    by (unfold len; rewrite length_take; lia).
  unfold index_of. rewrite index_from_app. cbn [index_from].
  now rewrite Hlen, !Z.add_0_l.
Qed.

Lemma data_of_split recs (k : nat) p :
  recs !! k = Some p ->
  data_of recs
  = data_of (take k recs) ++ make_record (len p) p ++ data_of (drop (S k) recs).
Proof.
  intros Hk. rewrite <- (take_drop_middle _ _ _ Hk) at 1.
  now rewrite data_of_app, data_of_cons.
Qed.

Lemma Forall_lookup_small recs (k : nat) (p : list byte) :
  Forall (fun p => len p < 2 ^ 32) recs -> recs !! k = Some p -> len p < 2 ^ 32.
Proof. intros HF Hk. eapply (proj1 (Forall_lookup _ _) HF); eauto. Qed.

(** [Get] on a store built through its operations. *)
Lemma Store_Get_spec recs s fs (k : nat) p :
  store_inv recs s fs -> recs !! k = Some p ->
  (Store_Get (Z.of_nat k) s fs).1
  = if 2 ^ 20 <? len p
    then Err (Errorf "invalid value length %d at line %d" [len p; Z.of_nat k])
    else Ok p.
Proof.
  intros Hinv Hk. pose proof (lookup_len_lt _ _ _ Hk).
  pose proof Hinv as [].
  unfold Store_Get. rewrite si_count0.
  destruct (Z.leb_spec (len recs) (Z.of_nat k)); [lia|].
  eapply read_line_spec; eauto using index_of_split, data_of_split,
    Forall_lookup_small.
  - autorewrite with len. unfold len in *. rewrite length_take. lia.
  - autorewrite with len. lia.
Qed.

(** [Set] keeps [store_inv], for a payload whose length fits 32 bits. *)
Lemma Store_Set_store_inv recs P s fs n s' fs' :
  store_inv recs s fs -> len P < 2 ^ 32 ->
  Store_Set P s fs = (Ok n, s', fs') ->
  n = len recs /\ store_inv (recs ++ [P]) s' fs'.
Proof.
  intros Hinv HP HS.
  pose proof (store_inv_index_inv _ _ _ Hinv) as Hii.
  pose proof (index_inv_names _ _ Hii) as Hne.
  pose proof Hinv as [].
  destruct (Store_Set_room _ _ _ _ _ _ _ _ Hii si_data0 si_index0 HS) as [Hdm Him].
  rewrite (Store_Set_ok _ _ _ _ _ Hii si_data0 si_index0 Hdm Him) in HS.
  injection HS as <- <- <-. split; [assumption|].
  pose proof (len_nonneg P). rewrite len_index_of in Him.
  rewrite uint32_small by lia.
  split; store_simpl; auto.
  - rewrite data_of_snoc. fs_lookup.
  - rewrite index_of_snoc, si_count0. fs_lookup.
  - autorewrite with len. lia.
  - apply Forall_app. split; auto.
  - rewrite data_of_snoc. autorewrite with len. lia.
  - autorewrite with len. lia.
Qed.

(** ** The scan of [countLines] *)

Lemma Seek_cur_ok off f fs c :
  closed f = false -> fs !! name f = Some c -> 0 <= pos f + off <= max_off ->
  Seek off SeekCurrent f fs = Ok (pos f + off, with_pos (pos f + off) f).
Proof.
  intros Hc Hf Ho. unfold Seek. rewrite Hc, Hf. cbv zeta.
  destruct (Z.ltb_spec (pos f + off) 0); [lia|].
  destruct (Z.ltb_spec max_off (pos f + off)); [lia|]. reflexivity.
Qed.

(** On a data file made of whole records the scan counts them and stops at
    the end of the file. *)
Lemma countLines_loop_spec recs :
  forall fuel pre k f fs c,
    closed f = false -> fs !! name f = Some c -> c = pre ++ data_of recs ->
    pos f = len pre -> Forall (fun p => len p < 2 ^ 32) recs ->
    len c <= max_off -> (length (data_of recs) < fuel)%nat ->
    0 <= k -> k + len recs < 2 ^ 64 ->
    countLines_loop fuel k f fs = Some (Ok (k + len recs), with_pos (len c) f).
Proof.
  induction recs as [|p recs IH];
    intros fuel pre k f fs c Hc Hf Hs Hp Hsm Hm Hfu Hk Hkn;
    (destruct fuel as [|fuel]; [lia|]); cbn [countLines_loop].
  - unfold data_of in Hs. cbn [map concat] in Hs. rewrite app_nil_r in Hs.
    subst c. unfold binary_Read.
    rewrite (ReadFull_end _ _ _ pre) by (auto; lia).
    rewrite len_nil, Z.add_0_r, <- Hp. now rewrite with_pos_pos.
  - rewrite data_of_cons in Hs, Hfu. apply Forall_cons in Hsm as [Hp32 Hsm].
    rewrite len_cons in Hkn |- *.
    pose proof (len_nonneg p). pose proof (len_nonneg pre).
    pose proof (len_nonneg (data_of recs)). pose proof (len_nonneg recs).
    assert (len c = len pre + (5 + len p) + len (data_of recs)) as Hlc
      by (rewrite Hs; autorewrite with len; lia).
    unfold make_record in Hs.
    change [Byte.x00] with (le_split 1 0) in Hs.
    change (binary_Read 1) with (binary_Read (Z.of_nat 1)).
    change (binary_Read 4) with (binary_Read (Z.of_nat 4)).
    rewrite (binary_Read_ok 1 0 pre
               (le_split 4 (len p) ++ p ++ data_of recs) f fs c) by read_side.
    rewrite Z.eqb_refl. cbn [negb].
    rewrite (binary_Read_ok 4 (len p) (pre ++ le_split 1 0)
               (p ++ data_of recs) _ fs c) by read_side.
    rewrite int64_small by (unfold max_off; lia).
    rewrite (Seek_cur_ok _ _ _ c) by (store_simpl; auto; lia).
    rewrite uint64_small by lia.
    rewrite (IH fuel (pre ++ le_split 1 0 ++ le_split 4 (len p) ++ p)
               (k + 1) _ fs c); try io_side.
    + pos_eq.
    + rewrite length_app in Hfu.
      pose proof (len_make_record (len p) p) as Hr. unfold len in *. lia.
Qed.

(** [countLines] on such a data file, whatever the index file holds. *)
Lemma countLines_spec recs s fs i :
  closed (file s) = false -> closed (indexFile s) = false ->
  fs !! name (file s) = Some (data_of recs) ->
  fs !! name (indexFile s) = Some i ->
  Forall (fun p => len p < 2 ^ 32) recs ->
  len (data_of recs) <= max_off -> 16 * len recs <= max_off ->
  countLines s fs
  = Some (if len i =? len recs * 16 then None
          else Some (Errorf "index file size %d does not match expected %d"
                       [len i; len recs * 16]),
          mkStore (with_pos (len (data_of recs)) (file s)) (indexFile s)
            (len recs)).
Proof.
  intros Hcf Hci Hd Hi Hsm Hdm Him. pose proof (len_nonneg recs).
  pose proof max_off_lt.
  unfold countLines.
  rewrite (Seek_start_ok _ _ _ (data_of recs)) by (auto; unfold max_off; lia).
  store_simpl. rewrite Hd. cbn [default from_option].
  rewrite (countLines_loop_spec recs _ [] 0 _ fs (data_of recs)); auto; try lia.
  store_simpl. unfold Stat_Size. rewrite Hci, Hi.
  rewrite uint64_small, int64_small by lia. rewrite Z.add_0_l.
  destruct (len i =? len recs * 16); reflexivity.
Qed.

(** ** NewStore *)

Lemma NewStore_existing recs path fs i :
  fs !! path = Some (data_of recs) -> fs !! (path +:+ ".idx") = Some i ->
  Forall (fun p => len p < 2 ^ 32) recs ->
  len (data_of recs) <= max_off -> 16 * len recs <= max_off ->
  NewStore path fs
  = Some (if len i =? len recs * 16
          then Ok (mkStore (mkFile path (len (data_of recs)) true false)
                     (mkFile (path +:+ ".idx") 0 true false) (len recs))
          else Err (Wrapf "failed to count lines: %v" []
                      (Errorf "index file size %d does not match expected %d"
                         [len i; len recs * 16])),
          fs).
Proof.
  intros Hd Hi Hsm Hdm Him. unfold NewStore, OpenFile. rewrite Hd, Hi.
  rewrite (countLines_spec recs _ fs i) by (store_simpl; auto).
  now destruct (len i =? len recs * 16).
Qed.

Lemma NewStore_fresh path fs :
  fs !! path = None -> fs !! (path +:+ ".idx") = None ->
  NewStore path fs
  = Some (Ok (mkStore (mkFile path 0 true false)
                (mkFile (path +:+ ".idx") 0 true false) 0),
          <[path +:+ ".idx" := []]> (<[path := []]> fs)).
Proof.
  intros Hd Hi. unfold NewStore, OpenFile. rewrite Hd.
  rewrite lookup_insert_ne, Hi by (apply not_eq_sym, idx_path_ne).
  pose proof (idx_path_ne path).
  rewrite (countLines_spec [] _ _ []); store_simpl; auto; try fs_lookup.
  - now vm_compute.
  - now vm_compute.
Qed.

Lemma store_inv_opened recs path fs :
  fs !! path = Some (data_of recs) ->
  fs !! (path +:+ ".idx") = Some (index_of recs) ->
  Forall (fun p => len p < 2 ^ 32) recs ->
  len (data_of recs) <= max_off -> 16 * len recs <= max_off ->
  store_inv recs
    (mkStore (mkFile path (len (data_of recs)) true false)
       (mkFile (path +:+ ".idx") 0 true false) (len recs)) fs.
Proof. intros. split; store_simpl; auto. Qed.

Lemma store_inv_fresh path fs :
  store_inv []
    (mkStore (mkFile path 0 true false) (mkFile (path +:+ ".idx") 0 true false) 0)
    (<[path +:+ ".idx" := []]> (<[path := []]> fs)).
Proof.
  pose proof (idx_path_ne path).
  split; store_simpl; auto; try fs_lookup.
  - now vm_compute.
  - now vm_compute.
Qed.

(** *** The scan always ends within its bound *)

Lemma ReadFull_Ok_inv n f fs m bs f' :
  0 < n -> ReadFull n f fs = (m, Ok bs, f') ->
  exists c, closed f = false /\ fs !! name f = Some c
            /\ f' = with_pos (pos f + n) f
            /\ n <= len (drop (Z.to_nat (pos f)) c)
            /\ bs = take (Z.to_nat n) (drop (Z.to_nat (pos f)) c) /\ m = n.
Proof.
  intros Hn. unfold ReadFull.
  destruct (Z.leb_spec n 0); [lia|].
  destruct (closed f); [discriminate|].
  destruct (fs !! name f) as [c|]; [|discriminate].
  destruct (Z.eqb_spec (len (drop (Z.to_nat (pos f)) c)) 0); [discriminate|].
  destruct (Z.ltb_spec (len (drop (Z.to_nat (pos f)) c)) n); [discriminate|].
  intros [= <- <- <-]. exists c. repeat split; auto.
Qed.

Lemma binary_Read_Ok_inv n f fs v f' :
  0 < n -> binary_Read n f fs = (Ok v, f') ->
  exists c, closed f = false /\ fs !! name f = Some c
            /\ f' = with_pos (pos f + n) f
            /\ n <= len (drop (Z.to_nat (pos f)) c)
            /\ 0 <= v < 2 ^ (8 * n).
Proof.
  intros Hn. unfold binary_Read.
  destruct (ReadFull n f fs) as [[m [bs|e]] f1] eqn:E; [|discriminate].
  intros [= <- <-].
  destruct (ReadFull_Ok_inv _ _ _ _ _ _ Hn E) as (c&Hc&Hf&Hf'&Hle&Hbs&_).
  exists c. repeat split; auto.
  - apply le_combine_bound.
  - pose proof (le_combine_bound bs) as Hb.
    replace (Z.of_nat (length bs)) with n in Hb; [lia|].
    rewrite Hbs, length_take. unfold len in Hle. lia.
Qed.

Lemma Seek_cur_Ok_inv off f fs p f' :
  Seek off SeekCurrent f fs = Ok (p, f') ->
  f' = with_pos (pos f + off) f /\ 0 <= pos f + off.
Proof.
  unfold Seek. destruct (closed f); [discriminate|].
  destruct (fs !! name f); [|discriminate]. cbv zeta.
  destruct (Z.ltb_spec (pos f + off) 0); [discriminate|].
  destruct (max_off <? pos f + off); [discriminate|].
  intros [= <- <-]. auto.
Qed.

Lemma countLines_loop_total fuel :
  forall k f fs,
    0 <= pos f ->
    (length (default [] (fs !! name f)) - Z.to_nat (pos f) < fuel)%nat ->
    is_Some (countLines_loop fuel k f fs).
Proof.
  induction fuel as [|fuel IH]; intros k f fs Hp Hfu; [lia|].
  cbn [countLines_loop].
  destruct (binary_Read 1 f fs) as [[t|e] f1] eqn:E1.
  2:{ destruct e; eauto. }
  destruct (negb (t =? 0)); [eauto|].
  apply binary_Read_Ok_inv in E1 as (c&Hc&Hf&->&Hle&_); [|lia].
  destruct (binary_Read 4 _ fs) as [[v|e] f2] eqn:E2; [|eauto].
  apply binary_Read_Ok_inv in E2 as (c'&_&Hf'&->&_&Hv); [|lia].
  destruct (Seek (int64 v) SeekCurrent _ fs) as [[q f3]|e] eqn:E3; [|eauto].
  apply Seek_cur_Ok_inv in E3 as [-> _].
  rewrite int64_small by (unfold max_off; lia).
  apply IH; store_simpl; [lia|].
  rewrite Hf in Hfu |- *. cbn [default from_option] in *. unfold id in *.
  unfold len in Hle. rewrite length_drop in Hle. lia.
Qed.

(** [NewStore] always returns. *)
Lemma NewStore_total path fs : is_Some (NewStore path fs).
Proof.
  unfold NewStore.
  destruct (OpenFile path true false true fs) as [[f fs1]|e]; [|eauto].
  destruct (OpenFile _ true false true fs1) as [[i fs2]|e]; [|eauto].
  unfold countLines. store_simpl.
  destruct (Seek 0 SeekStart f fs2) as [[p f0]|e] eqn:E; [|eauto].
  assert (pos f0 = 0) as Hp0.
  { unfold Seek in E. repeat case_match; try discriminate.
    injection E as <- <-. reflexivity. }
  destruct (countLines_loop_total
              (S (length (default [] (fs2 !! name f0)))) 0 f0 fs2)
    as [[[n|e] f1] ->]; [lia|lia| |eauto].
  destruct (Stat_Size _ fs2); [|eauto].
  destruct (negb _); eauto.
Qed.

(** ** Enumeration *)

(** The payloads [recs] paired with their ordinals, the first being [k]. *)
Fixpoint numbered (k : Z) (recs : list (list byte)) : list (Z * list byte) :=
  match recs with
  | [] => []
  | p :: rest => (k, p) :: numbered (k + 1) rest
  end.

Lemma numbered_app k a b :
  numbered k (a ++ b) = numbered k a ++ numbered (k + len a) b.
Proof.
  revert k. induction a as [|p a IH]; intros k.
  - cbn [numbered app]. now rewrite len_nil, Z.add_0_r.
  - rewrite <- app_comm_cons. cbn [numbered]. rewrite IH, len_cons.
    rewrite <- app_comm_cons. do 3 f_equal. lia.
Qed.

Lemma length_numbered k recs : length (numbered k recs) = length recs.
Proof. revert k. induction recs; intros k; cbn [numbered length]; auto. Qed.

Lemma numbered_lookup recs : forall k (i : nat),
  numbered k recs !! i = (fun p => (k + Z.of_nat i, p)) <$> recs !! i.
Proof.
  induction recs as [|p recs IH]; intros k i; [reflexivity|].
  destruct i as [|i]; cbn [numbered].
  - cbn. now rewrite Z.add_0_r.
  - cbn [lookup list_lookup]. rewrite IH.
    destruct (recs !! i); cbn; [|reflexivity]. do 2 f_equal. lia.
Qed.

Definition small20 (p : list byte) : Prop := len p <= 2 ^ 20.

Lemma small20_small p : small20 p -> len p < 2 ^ 32.
Proof. unfold small20. lia. Qed.

Lemma Forall_small20_small recs :
  Forall small20 recs -> Forall (fun p => len p < 2 ^ 32) recs.
Proof. induction 1; constructor; auto using small20_small. Qed.

(** [List_loop] over a run of readable records: they are appended to the
    result and the loop goes on behind them. *)
Lemma List_loop_app good :
  forall n pre post k acc f fs c,
    closed f = false -> fs !! name f = Some c ->
    c = pre ++ data_of good ++ post -> pos f = len pre ->
    Forall small20 good ->
    List_loop (length good + n) k acc f fs
    = List_loop n (k + len good) (acc ++ numbered k good)
        (with_pos (len pre + len (data_of good)) f) fs.
Proof.
  induction good as [|p good IH]; intros n pre post k acc f fs c Hc Hf Hs Hp Hsm.
  - cbn [length numbered Nat.add]. change (data_of []) with (@nil byte).
    rewrite !len_nil, !Z.add_0_r, app_nil_r, <- Hp. now rewrite with_pos_pos.
  - apply Forall_cons in Hsm as [Hp20 Hsm]. unfold small20 in Hp20.
    rewrite data_of_cons in Hs |- *.
    cbn [length Nat.add List_loop].
    rewrite (read_record_spec k p pre (data_of good ++ post) f fs c)
      by (first [io_side | lia]).
    destruct (Z.ltb_spec (2 ^ 20) (len p)); [lia|].
    rewrite (IH n (pre ++ make_record (len p) p) post (k + 1) _ _ fs c);
      try io_side.
    + cbn [numbered]. rewrite <- app_assoc. cbn [app].
      rewrite len_cons. autorewrite with len.
      f_equal; [lia|]. pos_eq.
Qed.

Lemma Store_List_spec recs s fs :
  store_inv recs s fs -> Forall small20 recs ->
  (Store_List s fs).1 = Ok (numbered 0 recs).
Proof.
  intros [] Hsm. unfold Store_List.
  rewrite (Seek_start_ok _ _ _ (data_of recs)) by (auto; unfold max_off; lia).
  rewrite si_count0, to_nat_len.
  rewrite <- (Nat.add_0_r (length recs)).
  rewrite (List_loop_app recs 0 [] [] 0 [] _ fs (data_of recs));
    try io_side.
  now rewrite app_nil_r.
Qed.

(** [List] on a store holding a payload longer than [1<<20]. *)
Lemma Store_List_big good big rest s fs :
  store_inv (good ++ big :: rest) s fs -> Forall small20 good ->
  2 ^ 20 < len big ->
  (Store_List s fs).1
  = Err (Errorf "invalid value length %d at line %d" [len big; len good]).
Proof.
  intros [] Hsm Hbig. unfold Store_List.
  apply Forall_app in si_small0 as [_ [Hb32 _]%Forall_cons].
  rewrite (Seek_start_ok _ _ _ (data_of (good ++ big :: rest)))
    by (auto; unfold max_off; lia).
  rewrite si_count0, to_nat_len, length_app.
  rewrite data_of_app, data_of_cons in si_data0.
  rewrite (List_loop_app good _ [] (make_record (len big) big ++ data_of rest)
             0 [] _ fs (data_of good ++ make_record (len big) big ++ data_of rest));
    try io_side.
  cbn [length List_loop].
  rewrite (read_record_spec _ big (data_of good) (data_of rest) _ fs
             (data_of good ++ make_record (len big) big ++ data_of rest))
    by io_side.
  destruct (Z.ltb_spec (2 ^ 20) (len big)); [|lia].
  now rewrite Z.add_0_l.
Qed.

Lemma read_line_store recs s fs (k : nat) p :
  store_inv recs s fs -> recs !! k = Some p ->
  (read_line (Z.of_nat k) s fs).1
  = if 2 ^ 20 <? len p
    then Err (Errorf "invalid value length %d at line %d" [len p; Z.of_nat k])
    else Ok p.
Proof.
  intros Hinv Hk. pose proof (lookup_len_lt _ _ _ Hk).
  pose proof Hinv as [].
  eapply read_line_spec; eauto using index_of_split, data_of_split,
    Forall_lookup_small.
  - autorewrite with len. unfold len in *. rewrite length_take. lia.
  - autorewrite with len. lia.
Qed.

Lemma numbered_take_S recs (k : nat) p :
  recs !! k = Some p ->
  numbered 0 (take (S k) recs) = numbered 0 (take k recs) ++ [(Z.of_nat k, p)].
Proof.
  intros Hk. pose proof (lookup_lt_Some _ _ _ Hk).
  rewrite (take_S_r _ _ _ Hk), numbered_app. cbn [numbered].
  unfold len. rewrite length_take, Nat.min_l by lia. now rewrite Z.add_0_l.
Qed.

(** [ListAllReverse_loop] from line [k] down to line 0. *)
Lemma ListAllReverse_loop_spec recs fs :
  Forall small20 recs ->
  forall (k : nat) acc s,
    store_inv recs s fs -> (k < length recs)%nat ->
    (ListAllReverse_loop k acc s fs).1
    = Ok (acc ++ rev (numbered 0 (take (S k) recs))).
Proof.
  intros Hsm. induction k as [|k IH]; intros acc s Hinv Hk.
  all: destruct (lookup_lt_is_Some_2 recs _ Hk) as [p Hp].
  all: pose proof (proj1 (Forall_lookup _ _) Hsm _ _ Hp) as Hp20.
  all: unfold small20 in Hp20.
  all: pose proof (read_line_store _ _ _ _ _ Hinv Hp) as Hr.
  all: match type of Hr with
       | (read_line ?z _ _).1 = _ => pose proof (read_line_same z s fs) as Hsame
       end.
  all: cbn [ListAllReverse_loop].
  all: destruct (read_line _ s fs) as [r s1]; cbn [fst snd] in Hr, Hsame.
  all: destruct (Z.ltb_spec (2 ^ 20) (len p)); [lia|]; subst r.
  - cbn [fst]. rewrite (numbered_take_S _ _ _ Hp).
    now rewrite take_0.
  - rewrite IH by (eauto using store_inv_same; lia).
    rewrite (numbered_take_S _ _ _ Hp), rev_app_distr. cbn [rev app].
    now rewrite <- app_assoc.
Qed.

Lemma Store_ListAllReverse_spec recs s fs :
  store_inv recs s fs -> Forall small20 recs ->
  (Store_ListAllReverse s fs).1 = Ok (rev (numbered 0 recs)).
Proof.
  intros Hinv Hsm. pose proof Hinv as []. unfold Store_ListAllReverse.
  rewrite si_count0.
  destruct (Z.eqb_spec (len recs) 0) as [Hz|Hz].
  - apply len_zero_nil in Hz as ->. reflexivity.
  - pose proof (len_nonneg recs).
    rewrite ListAllReverse_loop_spec with (recs := recs);
      auto; [|unfold len in *; lia].
    replace (S (Z.to_nat (len recs - 1))) with (length recs)
      by (unfold len in *; lia).
    now rewrite firstn_all.
Qed.

(** ** Backup *)

Lemma OpenFile_trunc path fs :
  OpenFile path true true false fs
  = Ok (mkFile path 0 false false, <[path := []]> fs).
Proof. unfold OpenFile. now destruct (fs !! path). Qed.

(** Copying a whole file into a freshly truncated one. *)
Lemma Copy_ok dst src fs c :
  closed src = false -> fs !! name src = Some c -> pos src = 0 ->
  closed dst = false -> fs !! name dst = Some [] -> pos dst = 0 ->
  len c <= max_off ->
  Copy dst src fs
  = Ok (with_pos (len c) dst, with_pos (len c) src, <[name dst := c]> fs).
Proof.
  intros Hcs Hs Hps Hcd Hd Hpd Hm. unfold Copy.
  rewrite Hcs, Hs, Hps. cbn [Z.to_nat drop]. rewrite drop_0.
  destruct (Z.eqb_spec (len c) 0) as [Hz|Hz].
  - rewrite Hz. apply len_zero_nil in Hz as ->.
    rewrite !with_pos_id by assumption. now rewrite insert_id.
  - pose proof (len_nonneg c).
    rewrite (Write_end_ok _ _ _ []) by (auto; rewrite ?len_nil; lia).
    rewrite len_nil, !Z.add_0_l. reflexivity.
Qed.

(** [backupTo] to a destination whose two paths are not the store's own. *)
Lemma Store_backupTo_ok dest polished s fs d i :
  closed (file s) = false -> closed (indexFile s) = false ->
  fs !! name (file s) = Some d -> fs !! name (indexFile s) = Some i ->
  len d <= max_off -> len i <= max_off ->
  dest <> name (file s) -> dest <> name (indexFile s) ->
  dest +:+ ".idx" <> name (file s) -> dest +:+ ".idx" <> name (indexFile s) ->
  Store_backupTo dest polished s fs
  = (None,
     mkStore (with_pos (len d) (file s)) (with_pos (len i) (indexFile s))
       (lineCount s),
     <[dest +:+ ".idx" := i]> (<[dest := d]> fs)).
Proof.
  intros Hcf Hci Hd Hi Hdm Him N1 N2 N3 N4.
  pose proof (idx_path_ne dest) as N5.
  pose proof (len_nonneg d). pose proof (len_nonneg i).
  unfold Store_backupTo. rewrite OpenFile_trunc.
  rewrite (Seek_start_ok _ _ _ d) by (first [io_side | lia]). store_simpl.
  rewrite (Copy_ok _ _ _ d) by io_side. store_simpl.
  rewrite insert_insert_eq.
  rewrite (Sync_ok _ _ d) by io_side.
  rewrite OpenFile_trunc.
  rewrite (Seek_start_ok _ _ _ i) by (first [io_side | lia]). store_simpl.
  rewrite (Copy_ok _ _ _ i) by io_side. store_simpl.
  rewrite insert_insert_eq.
  rewrite (Sync_ok _ _ i) by io_side.
  reflexivity.
Qed.

(** ** Polish *)

Lemma insert2_insert2 (m : gmap string (list byte)) a b A B x y :
  a <> b ->
  <[a := A]> (<[b := B]> (<[a := x]> (<[b := y]> m))) = <[a := A]> (<[b := B]> m).
Proof.
  intros Hab. apply map_eq. intros q.
  destruct (decide (q = a)) as [->|Hqa]; [now rewrite !lookup_insert_eq|].
  rewrite !(lookup_insert_ne _ a) by auto.
  destruct (decide (q = b)) as [->|Hqb]; [now rewrite !lookup_insert_eq|].
  now rewrite !lookup_insert_ne by auto.
Qed.

(** [Polish_loop] over a run of readable records: each is appended to the
    temporary data file, its entry to the temporary index file, and the loop
    goes on behind them. *)
Lemma Polish_loop_app good :
  forall n pre post i nl f tf tif fs c ct ci,
    closed f = false -> fs !! name f = Some c ->
    c = pre ++ data_of good ++ post -> pos f = len pre ->
    Forall small20 good ->
    closed tf = false -> fs !! name tf = Some ct -> pos tf = len ct ->
    closed tif = false -> fs !! name tif = Some ci -> pos tif = len ci ->
    name tf <> name f -> name tif <> name f -> name tif <> name tf ->
    len ct + len (data_of good) <= max_off ->
    len ci + 16 * len good <= max_off ->
    0 <= nl -> nl + len good < 2 ^ 64 ->
    Polish_loop (length good + n) i nl f tf tif fs
    = Polish_loop n (i + len good) (nl + len good)
        (with_pos (len pre + len (data_of good)) f)
        (with_pos (len ct + len (data_of good)) tf)
        (with_pos (len ci + 16 * len good) tif)
        (<[name tif := ci ++ index_from nl (len ct) good]>
           (<[name tf := ct ++ data_of good]> fs)).
Proof.
  induction good as [|p good IH];
    intros n pre post i nl f tf tif fs c ct ci
      Hc Hf Hs Hp Hsm Hct Hft Hpt Hci Hfi Hpi N1 N2 N3 Hmt Hmi Hnl Hnl64.
  - cbn [length Nat.add index_from]. change (data_of []) with (@nil byte).
    rewrite !len_nil, !app_nil_r, Z.mul_0_r, !Z.add_0_r.
    rewrite !with_pos_id by auto.
    rewrite (insert_id fs (name tf)) by auto.
    now rewrite insert_id by auto.
  - apply Forall_cons in Hsm as [Hp20 Hsm]. unfold small20 in Hp20.
    rewrite data_of_cons in Hs, Hmt |- *. rewrite len_cons in Hmi, Hnl64 |- *.
    autorewrite with len in Hmt.
    pose proof (len_nonneg p). pose proof (len_nonneg ct).
    pose proof (len_nonneg ci). pose proof (len_nonneg good).
    pose proof (len_nonneg (data_of good)). pose proof max_off_lt.
    cbn [length Nat.add Polish_loop].
    rewrite (read_record_spec i p pre (data_of good ++ post) f fs c)
      by (first [io_side | lia]).
    destruct (Z.ltb_spec (2 ^ 20) (len p)); [lia|].
    rewrite (Seek_cur_ok _ _ _ ct) by (auto; lia).
    rewrite Z.add_0_r, Hpt, (with_pos_id (len ct) tf) by auto.
    rewrite (Write_end_ok _ _ _ ct) by (first [io_side | lia]).
    rewrite (Write_end_ok _ _ _ ci) by (first [io_side | lia]).
    rewrite uint64_small by lia.
    rewrite (IH n (pre ++ make_record (len p) p) post (i + 1) (nl + 1) _ _ _ _ c
               (ct ++ make_record (len p) p)
               (ci ++ make_indexEntry nl (len ct)));
      try io_side; try lia.
    store_simpl. cbn [index_from]. autorewrite with len.
    rewrite insert2_insert2 by auto.
    rewrite <- !app_assoc.
    f_equal; try lia; try pos_eq.
Qed.

(** [Polish] on a store built through its operations, all of whose records
    pass the read-side checks, when closing the two live handles reports no
    error: both files are rewritten with the same bytes, the handles are
    fresh, and every path other than the six it works on is untouched. *)
Lemma Store_Polish_ok cr recs s fs :
  store_inv recs s fs -> Forall small20 recs ->
  cr (name (file s)) = None -> cr (name (indexFile s)) = None ->
  exists fs',
    Store_Polish cr s fs
    = (None,
       mkStore (mkFile (name (file s)) 0 true false)
         (mkFile (name (file s) +:+ ".idx") 0 true false) (len recs),
       fs')
    /\ fs' !! name (file s) = Some (data_of recs)
    /\ fs' !! (name (file s) +:+ ".idx") = Some (index_of recs)
    /\ fs' !! (name (file s) +:+ ".backup") = Some (data_of recs)
    /\ fs' !! ((name (file s) +:+ ".backup") +:+ ".idx") = Some (index_of recs)
    /\ fs' !! (name (file s) +:+ ".tmp") = None
    /\ fs' !! (name (file s) +:+ ".idx.tmp") = None
    /\ forall q,
         q <> name (file s) -> q <> name (file s) +:+ ".idx" ->
         q <> name (file s) +:+ ".backup" ->
         q <> (name (file s) +:+ ".backup") +:+ ".idx" ->
         q <> name (file s) +:+ ".tmp" -> q <> name (file s) +:+ ".idx.tmp" ->
         fs' !! q = fs !! q.
Proof.
  intros [] Hsm Hc1 Hc2.
  rewrite si_name0 in *.
  pose proof (len_nonneg recs). pose proof (len_nonneg (data_of recs)).
  pose proof max_off_lt.
  unfold Store_Polish.
  rewrite (Store_backupTo_ok _ _ _ _ (data_of recs) (index_of recs));
    auto; rewrite ?si_name0; try names_ne;
    [|autorewrite with len; lia].
  rewrite !OpenFile_trunc. store_simpl.
  rewrite (Seek_start_ok _ _ _ (data_of recs)) by (first [io_side | lia]).
  rewrite si_count0, to_nat_len, <- (Nat.add_0_r (length recs)).
  rewrite (Polish_loop_app recs 0 [] [] 0 0 _ _ _ _ (data_of recs) [] []);
    try io_side; try names_ne; try (autorewrite with len; lia);
    [|now rewrite app_nil_r].
  cbn [Polish_loop app]. store_simpl. change (len (@nil byte)) with 0. rewrite ?Z.add_0_l.
  rewrite insert2_insert2 by names_ne.
  fold (index_of recs).
  rewrite (Sync_ok _ _ (data_of recs)) by io_side.
  rewrite (Sync_ok _ _ (index_of recs)) by io_side.
  unfold File_Close. store_simpl. rewrite si_open_f0, si_open_i0.
  rewrite si_name0, Hc1, Hc2. store_simpl.
  unfold Rename.
  fs_eval (data_of recs). fs_eval (index_of recs).
  unfold OpenFile.
  fs_eval (data_of recs). fs_eval (index_of recs).
  store_simpl.
  eexists. split; [reflexivity|].
  repeat split; try fs_lookup.
  intros q Q1 Q2 Q3 Q4 Q5 Q6. fs_lookup.
Qed.

Lemma len_data_of_app_le good rest :
  len (data_of good) <= len (data_of (good ++ rest)).
Proof.
  rewrite data_of_app, len_app. pose proof (len_nonneg (data_of rest)). lia.
Qed.

(** [Polish] on a store holding a payload longer than [1<<20]: the rewrite
    stops at the first such record, before anything is closed or renamed. *)
Lemma Store_Polish_big cr good big rest s fs :
  store_inv (good ++ big :: rest) s fs -> Forall small20 good ->
  2 ^ 20 < len big ->
  (Store_Polish cr s fs).1.1
  = Some (Errorf "invalid value length %d at line %d" [len big; len good]).
Proof.
  intros [] Hsm Hbig.
  apply Forall_app in si_small0 as [_ [Hb32 _]%Forall_cons].
  rewrite si_name0 in *.
  pose proof (len_nonneg good). pose proof (len_nonneg rest).
  pose proof (len_nonneg (data_of good)).
  pose proof (len_data_of_app_le good (big :: rest)).
  rewrite len_app, len_cons in si_index_max0, si_count0.
  pose proof max_off_lt.
  set (d := data_of (good ++ big :: rest)) in *.
  set (i := index_of (good ++ big :: rest)) in *.
  assert (len i <= max_off)
    by (unfold i; autorewrite with len; lia).
  unfold Store_Polish.
  rewrite (Store_backupTo_ok _ _ _ _ d i);
    auto; rewrite ?si_name0; try names_ne.
  rewrite !OpenFile_trunc. store_simpl.
  rewrite (Seek_start_ok _ _ _ d) by (first [io_side | lia]).
  rewrite si_count0.
  replace (Z.to_nat (len good + (1 + len rest)))
    with (length good + S (length rest))%nat by (unfold len; lia).
  assert (d = [] ++ data_of good ++ make_record (len big) big ++ data_of rest)
    as Hd by (unfold d; now rewrite data_of_app, data_of_cons).
  rewrite (Polish_loop_app good _ [] (make_record (len big) big ++ data_of rest)
             0 0 _ _ _ _ d [] []);
    try io_side; try names_ne; try (autorewrite with len; lia).
  cbn [Polish_loop app]. change (len (@nil byte)) with 0. rewrite ?Z.add_0_l.
  rewrite (read_record_spec _ big (data_of good) (data_of rest) _ _ d)
    by io_side.
  destruct (Z.ltb_spec (2 ^ 20) (len big)); [|lia]. reflexivity.
Qed.

(** ** The index-size invariant under every operation *)

Lemma Store_Get_same line s fs : same_store s (Store_Get line s fs).2.
Proof.
  unfold Store_Get. destruct (lineCount s <=? line); cbn [snd]; auto.
  apply read_line_same.
Qed.

Lemma List_loop_same n : forall k acc f fs, same_file f (List_loop n k acc f fs).2.
Proof.
  induction n as [|n IH]; intros k acc f fs; cbn [List_loop snd]; auto.
  pose proof (read_record_same k f fs) as H.
  destruct (read_record k f fs) as [[[v value]|e] f1]; cbn [snd] in *; auto.
  eapply same_file_trans; eauto.
Qed.

Lemma Store_List_same s fs : same_store s (Store_List s fs).2.
Proof.
  unfold Store_List.
  destruct (Seek 0 SeekStart (file s) fs) as [[p f0]|e] eqn:E; cbn [snd]; auto.
  apply Seek_same in E.
  pose proof (List_loop_same (Z.to_nat (lineCount s)) 0 [] f0 fs) as H.
  destruct (List_loop _ 0 [] f0 fs) as [r f1]; cbn [snd] in *.
  repeat split; store_simpl; auto. all: eapply same_file_trans; eauto.
Qed.

Lemma ListAllReverse_loop_same k :
  forall acc s fs, same_store s (ListAllReverse_loop k acc s fs).2.
Proof.
  induction k as [|k IH]; intros acc s fs; cbn [ListAllReverse_loop].
  all: match goal with
       | |- context [read_line ?z ?s0 ?fs0] =>
           pose proof (read_line_same z s0 fs0) as H
       end.
  all: destruct (read_line _ s fs) as [[value|e] s1]; cbn [snd] in *; auto.
  eapply same_store_trans; eauto.
Qed.

Lemma Store_ListAllReverse_same s fs :
  same_store s (Store_ListAllReverse s fs).2.
Proof.
  unfold Store_ListAllReverse. destruct (lineCount s =? 0); cbn [snd]; auto.
  apply ListAllReverse_loop_same.
Qed.

(** [Backup] to a destination that is none of the store's own paths keeps
    the invariant and always succeeds. *)
Lemma Store_Backup_index_inv dest polished s fs :
  index_inv s fs ->
  dest <> name (file s) -> dest <> name (indexFile s) ->
  dest +:+ ".idx" <> name (file s) ->
  exists s' fs',
    Store_Backup dest polished s fs = (None, s', fs')
    /\ index_inv s' fs'
    /\ fs' !! dest = fs !! name (file s)
    /\ fs' !! (dest +:+ ".idx") = fs !! name (indexFile s)
    /\ fs' !! name (file s) = fs !! name (file s)
    /\ fs' !! name (indexFile s) = fs !! name (indexFile s).
Proof.
  intros Hinv N1 N2 N3.
  pose proof Hinv as [Hof Hoi Haf Hai Hn (d&Hd&Hdm) (i&Hi&Hil&Him)].
  assert (dest +:+ ".idx" <> name (indexFile s)) as N4.
  { rewrite Hn. intros H%path_app_inj_r. auto. }
  pose proof (idx_path_ne dest).
  unfold Store_Backup.
  rewrite (Store_backupTo_ok _ _ _ _ d i) by auto.
  eexists _, _. split; [reflexivity|].
  split; [|rewrite Hd, Hi; repeat split; fs_lookup].
  split; store_simpl; auto.
  - exists d. split; [fs_lookup|auto].
  - exists i. split; [fs_lookup|auto].
Qed.

Lemma Write_end_big data f fs c :
  closed f = false -> fs !! name f = Some c -> pos f = len c ->
  0 < len data -> max_off < len c + len data ->
  Write data f fs = Err EFBIG.
Proof.
  intros Hc Hf Hp Hn Hm. unfold Write. rewrite Hc, Hf, Hp.
  destruct (Z.eqb_spec (len data) 0); [lia|].
  replace (if append f then len c else len c) with (len c) by now destruct (append f).
  destruct (Z.ltb_spec max_off (len c + len data)); [|lia]. reflexivity.
Qed.

(** A [Polish_loop] that ran to its end, whatever it read: the temporary
    index file grew by one entry for each line counted, both temporary
    files stay within the offset range, no other file changed. *)
Lemma Polish_loop_sizes n :
  forall i nl f tf tif fs ct ci r f' fs',
    closed tf = false -> fs !! name tf = Some ct -> pos tf = len ct ->
    closed tif = false -> fs !! name tif = Some ci -> pos tif = len ci ->
    name tif <> name tf -> len ci = 16 * nl -> 0 <= nl ->
    len ct <= max_off -> len ci <= max_off ->
    Polish_loop n i nl f tf tif fs = (Ok r, f', fs') ->
    exists ct' ci',
      fs' !! name tf = Some ct' /\ fs' !! name tif = Some ci'
      /\ len ci' = 16 * r /\ 0 <= r
      /\ len ct' <= max_off /\ len ci' <= max_off
      /\ same_file f f'
      /\ forall q, q <> name tf -> q <> name tif -> fs' !! q = fs !! q.
Proof.
  induction n as [|n IH];
    intros i nl f tf tif fs ct ci r f' fs' Hct Hft Hpt Hci Hfi Hpi N Hl Hnl
      Hmt Hmi; cbn [Polish_loop].
  { intros [= <- <- <-]. exists ct, ci. repeat split; auto. }
  pose proof (read_record_same i f fs) as Hsame.
  destruct (read_record i f fs) as [[[valLen value]|e] f1]; [|discriminate].
  cbn [snd] in Hsame.
  pose proof (len_nonneg value). pose proof (len_nonneg ct).
  pose proof (len_nonneg ci). pose proof max_off_lt.
  rewrite (Seek_cur_ok _ _ _ ct) by (auto; lia).
  rewrite Z.add_0_r, Hpt, (with_pos_id (len ct) tf) by auto.
  destruct (Z_le_gt_dec (len ct + len (make_record valLen value)) max_off).
  2:{ rewrite (Write_end_big _ _ _ ct) by (first [io_side | lia]). discriminate. }
  rewrite (Write_end_ok _ _ _ ct) by (first [io_side | lia]).
  destruct (Z_le_gt_dec (len ci + len (make_indexEntry nl (len ct))) max_off).
  2:{ rewrite (Write_end_big _ _ _ ci) by (first [io_side | lia]). discriminate. }
  rewrite (Write_end_ok _ _ _ ci) by (first [io_side | lia]).
  autorewrite with len in *.
  rewrite uint64_small by lia.
  intros HL.
  eapply (IH _ _ _ _ _ _ (ct ++ make_record valLen value)
            (ci ++ make_indexEntry nl (len ct))) in HL;
    try io_side; try names_ne; try (autorewrite with len; lia).
  destruct HL as (ct'&ci'&Ra&Rb&Rc&Rd&Re&Rf&Rg&Rh).
  cbn [name with_pos] in Ra, Rb, Rh.
  refine (ex_intro _ ct' (ex_intro _ ci'
            (conj Ra (conj Rb (conj Rc (conj Rd (conj Re (conj Rf
               (conj _ _))))))))).
  - eapply same_file_trans; eauto.
  - intros q Q1 Q2. rewrite Rh by auto. fs_lookup.
Qed.

(** A [Polish] that returned no error leaves the invariant in place. *)
Lemma Store_Polish_index_inv cr s fs s' fs' :
  index_inv s fs -> Store_Polish cr s fs = (None, s', fs') -> index_inv s' fs'.
Proof.
  intros Hinv.
  pose proof Hinv as [Hof Hoi Haf Hai Hn (d&Hd&Hdm) (i&Hi&Hil&Him)].
  rewrite Hn in *. pose proof (len_nonneg d). pose proof max_off_lt.
  unfold Store_Polish.
  rewrite (Store_backupTo_ok _ _ _ _ d i);
    auto; rewrite ?Hn; try names_ne.
  rewrite !OpenFile_trunc. store_simpl.
  rewrite (Seek_start_ok _ _ _ d) by (first [io_side | lia]).
  destruct (Polish_loop _ 0 0 _ _ _ _) as [[[r|e] f1] fsL] eqn:EL;
    [|discriminate].
  eapply (Polish_loop_sizes _ _ _ _ _ _ _ [] []) in EL;
    try io_side; try names_ne.
  destruct EL as (ct'&ci'&Ra&Rb&Rc&Rd&Re&Rf&(Rn&Rap&Rcl)&Rh).
  cbn [name with_pos closed append] in Ra, Rb, Rn, Rap, Rcl.
  rewrite (Sync_ok _ _ ct') by io_side.
  rewrite (Sync_ok _ _ ci') by io_side.
  unfold File_Close. store_simpl. rewrite Rcl, Hof, Hoi, Rn, Hn.
  destruct (cr (name (file s))); [discriminate|].
  destruct (cr (name (file s) +:+ ".idx")); [discriminate|].
  store_simpl. unfold Rename.
  fs_eval ct'. fs_eval ci'. unfold OpenFile. fs_eval ct'. fs_eval ci'.
  store_simpl. intros [= <- <-].
  split; store_simpl; auto.
  - exists ct'. split; [fs_lookup|auto].
  - exists ci'. split; [fs_lookup|]. split; [lia|auto].
Qed.

(** *** What a successful [NewStore] has checked *)

Lemma countLines_loop_inv fuel :
  forall k f fs n f1,
    0 <= k -> countLines_loop fuel k f fs = Some (Ok n, f1) ->
    same_file f f1 /\ 0 <= n.
Proof.
  induction fuel as [|fuel IH]; intros k f fs n f1 Hk; [discriminate|].
  cbn [countLines_loop].
  pose proof (binary_Read_same 1 f fs) as S1.
  destruct (binary_Read 1 f fs) as [[t|e] f2]; cbn [snd] in S1.
  2:{ destruct e; intros [= <- <-] || discriminate. auto. }
  destruct (negb (t =? 0)); [discriminate|].
  pose proof (binary_Read_same 4 f2 fs) as S2.
  destruct (binary_Read 4 f2 fs) as [[v|e] f3]; cbn [snd] in S2; [|discriminate].
  destruct (Seek (int64 v) SeekCurrent f3 fs) as [[q f4]|e] eqn:E; [|discriminate].
  apply Seek_same in E. intros HL.
  apply IH in HL as [S4 Hn]; [|unfold uint64; apply Z.mod_pos_bound; lia].
  split; [|assumption]. eauto using same_file_trans.
Qed.

(** [NewStore] creates what is missing and changes no file that exists. *)
Lemma NewStore_keeps path fs r fs' q c :
  NewStore path fs = Some (r, fs') -> fs !! q = Some c -> fs' !! q = Some c.
Proof.
  unfold NewStore, OpenFile. intros HN Hq.
  destruct (fs !! path) eqn:E1.
  - destruct (fs !! (path +:+ ".idx")) eqn:E2.
    + destruct (countLines _ fs) as [[[e|] s1]|]; inversion HN; subst; auto.
    + destruct (countLines _ _) as [[[e|] s1]|]; inversion HN; subst.
      all: rewrite lookup_insert_ne; [assumption|congruence].
  - rewrite lookup_insert_ne in HN by apply not_eq_sym, idx_path_ne.
    destruct (fs !! (path +:+ ".idx")) eqn:E2.
    + destruct (countLines _ _) as [[[e|] s1]|]; inversion HN; subst.
      all: rewrite lookup_insert_ne; [assumption|congruence].
    + destruct (countLines _ _) as [[[e|] s1]|]; inversion HN; subst.
      all: rewrite !lookup_insert_ne; [assumption|congruence..].
Qed.

Lemma OpenFile_append_inv path fs f fs1 :
  OpenFile path true false true fs = Ok (f, fs1) ->
  f = mkFile path 0 true false
  /\ (exists c, fs1 !! path = Some c
                 /\ (fs !! path = None /\ c = [] \/ fs !! path = Some c))
  /\ forall q, q <> path -> fs1 !! q = fs !! q.
Proof.
  unfold OpenFile. destruct (fs !! path) as [c|] eqn:E; intros [= <- <-].
  - repeat split; eauto.
  - repeat split; [|intros; now rewrite lookup_insert_ne].
    exists []. rewrite lookup_insert_eq. auto.
Qed.

(** A store that [NewStore] returned: its handles, and the size of the
    index file it accepted. *)
Lemma NewStore_Ok_inv path fs s fs' :
  NewStore path fs = Some (Ok s, fs') ->
  name (file s) = path /\ name (indexFile s) = path +:+ ".idx"
  /\ closed (file s) = false /\ closed (indexFile s) = false
  /\ append (file s) = true /\ append (indexFile s) = true
  /\ 0 <= lineCount s
  /\ exists d i,
       fs' !! path = Some d /\ fs' !! (path +:+ ".idx") = Some i
       /\ len i = int64 (uint64 (lineCount s * 16))
       /\ (fs !! path = None /\ d = [] \/ fs !! path = Some d).
Proof.
  unfold NewStore.
  destruct (OpenFile path true false true fs) as [[f fs1]|e] eqn:O1;
    [|discriminate].
  destruct (OpenFile _ true false true fs1) as [[ix fs2]|e] eqn:O2;
    [|discriminate].
  apply OpenFile_append_inv in O1 as (->&(d&Hd&Hd0)&_).
  apply OpenFile_append_inv in O2 as (->&(i&Hi&_)&Hfr).
  rewrite <- Hfr in Hd by apply not_eq_sym, idx_path_ne.
  unfold countLines. store_simpl.
  destruct (Seek 0 SeekStart _ fs2) as [[p f0]|e] eqn:E0; [|discriminate].
  apply Seek_same in E0 as (n0&a0&c0). store_simpl.
  destruct (countLines_loop _ 0 f0 fs2) as [[[n|e] f1]|] eqn:EL;
    [|discriminate..].
  apply countLines_loop_inv in EL as [(n1&a1&c1) Hn]; [|lia].
  cbn [name append closed] in *.
  unfold Stat_Size. store_simpl. rewrite Hi.
  destruct (Z.eqb_spec (len i) (int64 (uint64 (n * 16)))) as [Hsz|Hsz];
    cbn [negb]; [|discriminate].
  intros [= <- <-]. store_simpl.
  repeat split; try congruence. exists d, i. auto.
Qed.

(** On a file system whose files are within the offset range, a store that
    [NewStore] returned satisfies [index_inv], provided its own index size
    is within that range too. *)
Lemma NewStore_index_inv path fs s fs' :
  (forall q c, fs !! q = Some c -> len c <= max_off) ->
  NewStore path fs = Some (Ok s, fs') -> lineCount s * 16 <= max_off ->
  index_inv s fs'.
Proof.
  intros Hok HN Hm.
  destruct (NewStore_Ok_inv _ _ _ _ HN)
    as (N1&N2&C1&C2&A1&A2&Hn&d&i&Hd&Hi&Hl&Hd0).
  pose proof max_off_lt.
  rewrite uint64_small, int64_small in Hl by lia.
  split; auto; rewrite ?N1, ?N2; auto.
  - exists d. split; [assumption|].
    destruct Hd0 as [[_ ->]|Hd0]; [now vm_compute|eauto].
  - exists i. repeat split; auto; lia.
Qed.

(** * The claims of the specification *)

(** ** Range enforcement *)

(** C8. [Get(n)] for any [n] at or above the record count fails with the
    out-of-range error, returns no payload and leaves the store as it was
    (it returns before touching either file); [GetLastLine] fails on an
    empty store and returns [lineCount - 1] otherwise. *)
Theorem Get_out_of_range (s : Store) (fs : gmap string (list byte)) (n : Z) :
  lineCount s <= n ->
  Store_Get n s fs
  = (Err (Errorf "line %d exceeds total lines %d" [n; lineCount s]), s)
  /\ (lineCount s = 0 -> Store_GetLastLine s = Err (Errorf "store is empty" []))
  /\ (lineCount s <> 0 -> Store_GetLastLine s = Ok (lineCount s - 1)).
Proof.
  intros Hn. unfold Store_Get, Store_GetLastLine.
  destruct (Z.leb_spec (lineCount s) n); [|lia].
  destruct (Z.eqb_spec (lineCount s) 0); repeat split; intros; auto; lia.
Qed.

(** ** Close *)

(** C9. [Close] closes the index file whether or not closing the data file
    failed. It reports the data file's error if there is one, whatever
    closing the index file said; otherwise the index file's error if there
    is one; otherwise nothing. *)
Theorem Close_reports (cr : string -> option ioerr) (s : Store) :
  indexFile (Store_Close cr s).2 = (File_Close cr (indexFile s)).2
  /\ closed (indexFile (Store_Close cr s).2) = true
  /\ file (Store_Close cr s).2 = (File_Close cr (file s)).2
  /\ (Store_Close cr s).1
     = match (File_Close cr (file s)).1, (File_Close cr (indexFile s)).1 with
       | Some e, _ => Some (Wrapf "failed to close data file: %v" [] (IOError e))
       | None, Some e =>
           Some (Wrapf "failed to close index file: %v" [] (IOError e))
       | None, None => None
       end.
Proof.
  assert (closed (File_Close cr (indexFile s)).2 = true) as Hc.
  { unfold File_Close. now destruct (closed (indexFile s)) eqn:E. }
  unfold Store_Close.
  destruct (File_Close cr (file s)) as [[e|] f1];
    destruct (File_Close cr (indexFile s)) as [[e'|] i1]; cbn in *; auto.
Qed.

(** ** Examples used below *)

(** The payload of the repository's tests. *)
Definition value1 : list byte := list_byte_of_string "value1".

(** A payload one byte longer than the read-side ceiling of [1<<20]. *)
Definition big_payload : list byte := replicate (Z.to_nat 1048577) Byte.x00.

(** The store [NewStore "test.db"] returns on an empty file system, and
    that file system afterwards. *)
Definition store_fresh : Store :=
  mkStore (mkFile "test.db" 0 true false) (mkFile "test.db.idx" 0 true false) 0.

Definition fs_fresh : gmap string (list byte) :=
  <["test.db.idx" := []]> (<["test.db" := []]> ∅).

Lemma len_big_payload : len big_payload = 1048577.
Proof. unfold len, big_payload. rewrite length_replicate. lia. Qed.

Lemma NewStore_test_db : NewStore "test.db" ∅ = Some (Ok store_fresh, fs_fresh).
Proof. now rewrite NewStore_fresh by apply lookup_empty. Qed.

Lemma store_inv_test_db : store_inv [] store_fresh fs_fresh.
Proof. apply (store_inv_fresh "test.db" ∅). Qed.

(** Appending the first payload to the fresh store succeeds and leaves a
    store built through its operations. *)
Lemma Set_on_fresh P :
  len P < 2 ^ 32 ->
  exists s1 fs1,
    Store_Set P store_fresh fs_fresh = (Ok 0, s1, fs1)
    /\ name (file s1) = "test.db"
    /\ store_inv [P] s1 fs1.
Proof.
  intros HP. pose proof (len_nonneg P).
  pose proof store_inv_test_db as Hinv.
  pose proof (store_inv_index_inv _ _ _ Hinv) as Hii.
  pose proof (Store_Set_ok P _ _ [] [] Hii eq_refl eq_refl) as HS.
  change (len (@nil byte)) with 0 in HS.
  specialize (HS ltac:(unfold max_off; lia) ltac:(now vm_compute)).
  eexists _, _. split; [exact HS|]. split; [reflexivity|].
  now eapply (Store_Set_store_inv [] P) in HS as [_ HS]; eauto.
Qed.

Lemma Set_big_payload :
  exists s1 fs1,
    Store_Set big_payload store_fresh fs_fresh = (Ok 0, s1, fs1)
    /\ name (file s1) = "test.db"
    /\ store_inv [big_payload] s1 fs1.
Proof. apply Set_on_fresh. rewrite len_big_payload. lia. Qed.

Lemma Set_value1 :
  exists s1 fs1,
    Store_Set value1 store_fresh fs_fresh = (Ok 0, s1, fs1)
    /\ name (file s1) = "test.db"
    /\ store_inv [value1] s1 fs1.
Proof. apply Set_on_fresh. now vm_compute. Qed.

(** ** Round trip *)

(** C1, as stated, fails: [Set] accepts a payload of [1<<20 + 1] bytes and
    returns ordinal 0, and [Get(0)] on the same store then fails with the
    invalid-length error instead of returning the payload. *)
Lemma Set_Get_big_payload_fails :
  exists s1 fs1,
    NewStore "test.db" ∅ = Some (Ok store_fresh, fs_fresh)
    /\ Store_Set big_payload store_fresh fs_fresh = (Ok 0, s1, fs1)
    /\ (Store_Get 0 s1 fs1).1
       = Err (Errorf "invalid value length %d at line %d" [1048577; 0])
    /\ (Store_Get 0 s1 fs1).1 <> Ok big_payload.
Proof.
  destruct Set_big_payload as (s1&fs1&HS&_&Hinv).
  exists s1, fs1. split; [apply NewStore_test_db|]. split; [exact HS|].
  pose proof (Store_Get_spec _ _ _ 0 big_payload Hinv eq_refl) as HG.
  rewrite len_big_payload in HG. change (Z.of_nat 0) with 0 in HG.
  change (2 ^ 20 <? 1048577) with true in HG. cbv iota in HG.
  split; [exact HG|]. rewrite HG. discriminate.
Qed.

(** C1, amended. On a store whose index file is [lineCount * 16] bytes long
    (every store [NewStore] returns, and every store reached from one by the
    operations below), a payload [P] of at most [1<<20] bytes, empty or of
    arbitrary bytes: when the two files have room for the record and its
    entry [Set] returns the ordinal [lineCount]; and whenever [Set] returns
    an ordinal [n], [Get(n)] on the resulting store returns exactly [P]. *)
Theorem Set_Get_round_trip (P : list byte) (s : Store)
    (fs : gmap string (list byte)) :
  index_inv s fs -> len P <= 2 ^ 20 ->
  (forall d i,
      fs !! name (file s) = Some d -> fs !! name (indexFile s) = Some i ->
      len d + (5 + len P) <= max_off -> len i + 16 <= max_off ->
      exists s' fs', Store_Set P s fs = (Ok (lineCount s), s', fs'))
  /\ (forall n s' fs',
        Store_Set P s fs = (Ok n, s', fs') ->
        n = lineCount s /\ (Store_Get n s' fs').1 = Ok P).
Proof.
  intros Hinv HP. split.
  { intros d i Hd Hi Hdm Him. eexists _, _.
    apply (Store_Set_ok _ _ _ d i); auto. }
  intros n s' fs' HS.
  pose proof (index_inv_names _ _ Hinv) as Hne.
  pose proof Hinv as [Hof Hoi Haf Hai Hn (d&Hd&Hdmax) (i&Hi&Hil&Himax)].
  destruct (Store_Set_room _ _ _ _ _ _ _ _ Hinv Hd Hi HS) as [Hdm Him].
  rewrite (Store_Set_ok _ _ _ _ _ Hinv Hd Hi Hdm Him) in HS.
  injection HS as <- <- <-. split; [reflexivity|].
  pose proof (len_nonneg P). pose proof (len_nonneg d). pose proof (len_nonneg i).
  unfold Store_Get. store_simpl.
  destruct (Z.leb_spec (lineCount s + 1) (lineCount s)); [lia|].
  rewrite uint32_small by lia.
  rewrite (read_line_spec (lineCount s) (len d) P i [] d [] _ _
             (i ++ make_indexEntry (lineCount s) (len d))
             (d ++ make_record (len P) P));
    try io_side; try (autorewrite with len; lia);
    [|now rewrite app_nil_r].
  destruct (Z.ltb_spec (2 ^ 20) (len P)); [lia|reflexivity].
Qed.

Lemma Set_Get_round_trip_witness :
  exists s' fs',
    Store_Set value1 store_fresh fs_fresh = (Ok 0, s', fs')
    /\ (Store_Get 0 s' fs').1 = Ok value1.
Proof.
  destruct (Set_Get_round_trip value1 store_fresh fs_fresh
              (store_inv_index_inv _ _ _ store_inv_test_db)
              ltac:(now vm_compute)) as [H1 H2].
  destruct (H1 [] [] eq_refl eq_refl ltac:(now vm_compute) ltac:(now vm_compute))
    as (s'&fs'&HS).
  exists s', fs'. split; [exact HS|]. exact (proj2 (H2 _ _ _ HS)).
Defined.

Lemma Get_out_of_range_witness :
  Store_Get 999 store_fresh fs_fresh
  = (Err (Errorf "line %d exceeds total lines %d" [999; 0]), store_fresh)
  /\ (lineCount store_fresh = 0 ->
      Store_GetLastLine store_fresh = Err (Errorf "store is empty" []))
  /\ (lineCount store_fresh <> 0 ->
      Store_GetLastLine store_fresh = Ok (lineCount store_fresh - 1)).
Proof.
  apply (Get_out_of_range store_fresh fs_fresh 999). now vm_compute.
Defined.

(** ** Persistence *)

(** Reopening the path of a store built through its operations gives a
    store over the same files with the same record count. *)
Lemma reopen_spec recs s fs :
  store_inv recs s fs ->
  exists s3,
    NewStore (name (file s)) fs = Some (Ok s3, fs)
    /\ store_inv recs s3 fs /\ lineCount s3 = lineCount s.
Proof.
  intros []. rewrite si_name0 in *.
  rewrite (NewStore_existing recs _ _ (index_of recs)) by auto.
  rewrite len_index_of.
  destruct (Z.eqb_spec (16 * len recs) (len recs * 16)); [|lia].
  eexists. split; [reflexivity|].
  split; [now apply store_inv_opened|]. store_simpl. congruence.
Qed.

Lemma Store_Close_keeps cr s :
  name (file (Store_Close cr s).2) = name (file s)
  /\ lineCount (Store_Close cr s).2 = lineCount s.
Proof.
  unfold Store_Close, File_Close.
  destruct (closed (file s)), (closed (indexFile s));
    repeat (destruct (cr _)); cbn; auto.
Qed.

Lemma Store_Get_snoc recs P s fs :
  store_inv (recs ++ [P]) s fs -> len P <= 2 ^ 20 ->
  (Store_Get (len recs) s fs).1 = Ok P.
Proof.
  intros Hinv HP. unfold len at 1.
  rewrite (Store_Get_spec _ _ _ (length recs) P Hinv)
    by apply list_lookup_middle, eq_refl.
  destruct (Z.ltb_spec (2 ^ 20) (len P)); [lia|reflexivity].
Qed.

(** C2, as stated, fails: a payload of [1<<20 + 1] bytes is appended with
    ordinal 0, the store is closed and reopened at the same path, and
    [Get(0)] on the reopened store fails with the invalid-length error. *)
Lemma reopen_Get_big_payload_fails :
  exists s1 fs1 s3,
    Store_Set big_payload store_fresh fs_fresh = (Ok 0, s1, fs1)
    /\ NewStore (name (file (Store_Close (fun _ => None) s1).2)) fs1
       = Some (Ok s3, fs1)
    /\ (Store_Get 0 s3 fs1).1
       = Err (Errorf "invalid value length %d at line %d" [1048577; 0])
    /\ (Store_Get 0 s3 fs1).1 <> Ok big_payload.
Proof.
  destruct Set_big_payload as (s1&fs1&HS&Hname&Hinv).
  destruct (reopen_spec _ _ _ Hinv) as (s3&HN&Hinv3&_).
  exists s1, fs1, s3. split; [exact HS|].
  rewrite (proj1 (Store_Close_keeps _ s1)). split; [exact HN|].
  pose proof (Store_Get_spec _ _ _ 0 big_payload Hinv3 eq_refl) as HG.
  rewrite len_big_payload in HG. change (Z.of_nat 0) with 0 in HG.
  change (2 ^ 20 <? 1048577) with true in HG. cbv iota in HG.
  split; [exact HG|]. rewrite HG. discriminate.
Qed.

(** C2, amended. On a store built through its operations, for a payload [P]
    of at most [1<<20] bytes: after [Set] returned ordinal [n] and the store
    was closed (whatever [Close] reported), [NewStore] at the same path
    succeeds, changes no file, rebuilds the [lineCount] the closed store
    had, and [Get(n)] on the reopened store returns [P]. *)
Theorem Set_Close_reopen_Get (cr : string -> option ioerr)
    (recs : list (list byte)) (P : list byte) (s : Store)
    (fs : gmap string (list byte)) (n : Z) (s1 : Store)
    (fs1 : gmap string (list byte)) :
  store_inv recs s fs -> len P <= 2 ^ 20 ->
  Store_Set P s fs = (Ok n, s1, fs1) ->
  exists s3,
    NewStore (name (file (Store_Close cr s1).2)) fs1 = Some (Ok s3, fs1)
    /\ lineCount s3 = lineCount (Store_Close cr s1).2
    /\ (Store_Get n s3 fs1).1 = Ok P.
Proof.
  intros Hinv HP HS.
  apply (Store_Set_store_inv recs) in HS as [-> Hinv1]; [|auto|lia].
  destruct (reopen_spec _ _ _ Hinv1) as (s3&HN&Hinv3&Hc).
  destruct (Store_Close_keeps cr s1) as [-> ->].
  exists s3. repeat split; auto. now apply Store_Get_snoc.
Qed.

Lemma Set_Close_reopen_Get_witness :
  exists s1 fs1 s3,
    Store_Set value1 store_fresh fs_fresh = (Ok 0, s1, fs1)
    /\ NewStore (name (file (Store_Close (fun _ => None) s1).2)) fs1
       = Some (Ok s3, fs1)
    /\ lineCount s3 = lineCount (Store_Close (fun _ => None) s1).2
    /\ (Store_Get 0 s3 fs1).1 = Ok value1.
Proof.
  destruct Set_value1 as (s1&fs1&HS&_).
  destruct (Set_Close_reopen_Get (fun _ => None) [] value1 store_fresh fs_fresh
              0 s1 fs1 store_inv_test_db ltac:(now vm_compute) HS) as (s3&H).
  exists s1, fs1, s3. split; [exact HS|exact H].
Defined.

(** ** Corruption detected at open *)

(** A data file whose only record declares five payload bytes and holds
    one, and an index file of one entry. *)
Definition fs_truncated : gmap string (list byte) :=
  <["d.idx" := make_indexEntry 0 0]>
    (<["d" := [Byte.x00; Byte.x05; Byte.x00; Byte.x00; Byte.x00; Byte.x61]]> ∅).

(** C3 fails on the code. The scan of [countLines] skips a payload with
    [Seek], which succeeds past the end of the file: the record above, whose
    declared length overruns the file, is counted, the next read meets
    [io.EOF], the index size matches one record, and [NewStore] returns a
    store of one line. [Get(0)] and [List] on that store then meet the short
    read that the scan did not. *)
Theorem NewStore_accepts_overrunning_length :
  NewStore "d" fs_truncated
  = Some (Ok (mkStore (mkFile "d" 10 true false) (mkFile "d.idx" 0 true false) 1),
          fs_truncated)
  /\ (Store_Get 0
        (mkStore (mkFile "d" 10 true false) (mkFile "d.idx" 0 true false) 1)
        fs_truncated).1
     = Err (Wrapf "failed to read value at line %d (read %d/%d bytes): %v"
              [0; 1; 5] (IOError ErrUnexpectedEOF))
  /\ (Store_List
        (mkStore (mkFile "d" 10 true false) (mkFile "d.idx" 0 true false) 1)
        fs_truncated).1
     = Err (Wrapf "failed to read value at line %d (read %d/%d bytes): %v"
              [0; 1; 5] (IOError ErrUnexpectedEOF)).
Proof. repeat split; vm_compute; reflexivity. Qed.

(** ** The index-size invariant *)

Lemma Copy_empty dst src fs :
  closed src = false -> fs !! name src = Some [] ->
  Copy dst src fs = Ok (dst, src, fs).
Proof.
  intros Hc Hs. unfold Copy. rewrite Hc, Hs. now rewrite drop_nil.
Qed.

(** [Backup] onto the store's own data path: opening the destination
    truncates the data file, then the index file, before either is copied. *)
Lemma Store_Backup_own_path polished s fs :
  index_inv s fs ->
  Store_Backup (name (file s)) polished s fs
  = (None,
     mkStore (with_pos 0 (file s)) (with_pos 0 (indexFile s)) (lineCount s),
     <[name (file s) +:+ ".idx" := []]> (<[name (file s) := []]> fs)).
Proof.
  intros Hinv. pose proof (index_inv_names _ _ Hinv) as Hne.
  destruct Hinv as [Hof Hoi Haf Hai Hn (d&Hd&Hdmax) (i&Hi&Hil&Himax)].
  unfold Store_Backup, Store_backupTo. rewrite OpenFile_trunc.
  rewrite (Seek_start_ok _ _ _ []) by (first [io_side | now vm_compute]).
  store_simpl.
  rewrite Copy_empty by io_side. store_simpl.
  rewrite (Sync_ok _ _ []) by io_side.
  rewrite OpenFile_trunc.
  rewrite (Seek_start_ok _ _ _ [])
    by (store_simpl; rewrite ?Hn; first [io_side | now vm_compute]).
  store_simpl.
  rewrite Copy_empty by (store_simpl; rewrite ?Hn; io_side). store_simpl.
  rewrite (Sync_ok _ _ []) by io_side.
  reflexivity.
Qed.

(** C4, as stated, fails for [Backup]: backing a store of one line up onto
    its own path truncates both of its files, returns no error, and leaves an
    empty index file next to a [lineCount] of 1. *)
Lemma Backup_onto_own_path_breaks_invariant :
  exists s1 fs1 s2 fs2,
    NewStore "test.db" ∅ = Some (Ok store_fresh, fs_fresh)
    /\ Store_Set value1 store_fresh fs_fresh = (Ok 0, s1, fs1)
    /\ Store_Backup "test.db" false s1 fs1 = (None, s2, fs2)
    /\ lineCount s2 = 1
    /\ fs2 !! name (indexFile s2) = Some []
    /\ len (@nil byte) <> lineCount s2 * 16.
Proof.
  destruct Set_value1 as (s1&fs1&HS&Hname&Hinv).
  pose proof (store_inv_index_inv _ _ _ Hinv) as Hii.
  pose proof (Store_Backup_own_path false _ _ Hii) as HB.
  eexists s1, fs1, _, _.
  split; [apply NewStore_test_db|]. split; [exact HS|].
  split; [rewrite <- Hname; exact HB|]. store_simpl.
  destruct Hinv. rewrite si_count0, si_name0.
  split; [reflexivity|]. split; [fs_lookup|now vm_compute].
Qed.

(** C4, amended. On a store whose index file is [lineCount * 16] bytes
    long, that stays so after every [Set] that returned an ordinal, every
    [Polish] that returned no error, every [Backup] to a destination whose
    data and index paths are not the store's own, and every [Get], [List]
    and [ListAllReverse] whatever they returned. [NewStore] checks it: a
    store it returns has an index file of [lineCount * 16] bytes (when that
    product is a file offset), and [NewStore] never changes a file that
    exists, so a mismatch is an error and not a repair. *)
Theorem index_size_invariant (s : Store) (fs : gmap string (list byte)) :
  index_inv s fs ->
  (forall P n s' fs', Store_Set P s fs = (Ok n, s', fs') -> index_inv s' fs')
  /\ (forall cr s' fs',
        Store_Polish cr s fs = (None, s', fs') -> index_inv s' fs')
  /\ (forall dest polished s' fs',
        dest <> name (file s) -> dest <> name (indexFile s) ->
        dest +:+ ".idx" <> name (file s) ->
        Store_Backup dest polished s fs = (None, s', fs') -> index_inv s' fs')
  /\ (forall line, index_inv (Store_Get line s fs).2 fs)
  /\ index_inv (Store_List s fs).2 fs
  /\ index_inv (Store_ListAllReverse s fs).2 fs
  /\ (forall path fs0 s0 fs0',
        NewStore path fs0 = Some (Ok s0, fs0') ->
        lineCount s0 * 16 <= max_off ->
        exists i, fs0' !! (path +:+ ".idx") = Some i
                  /\ len i = lineCount s0 * 16)
  /\ (forall path fs0 r fs0' q c,
        NewStore path fs0 = Some (r, fs0') ->
        fs0 !! q = Some c -> fs0' !! q = Some c).
Proof.
  intros Hinv.
  split; [intros P n s' fs'; apply Store_Set_index_inv, Hinv|].
  split; [intros cr s' fs'; apply Store_Polish_index_inv, Hinv|].
  split.
  { intros dest polished s' fs' N1 N2 N3 HB.
    destruct (Store_Backup_index_inv dest polished s fs Hinv N1 N2 N3)
      as (s2&fs2&HB2&Hinv2&_).
    rewrite HB in HB2. injection HB2 as <- <-. exact Hinv2. }
  split; [intros line; eapply index_inv_same; eauto using Store_Get_same|].
  split; [eapply index_inv_same; eauto using Store_List_same|].
  split; [eapply index_inv_same; eauto using Store_ListAllReverse_same|].
  split.
  { intros path fs0 s0 fs0' HN Hm.
    destruct (NewStore_Ok_inv _ _ _ _ HN) as (_&_&_&_&_&_&Hn&d&i&_&Hi&Hl&_).
    pose proof max_off_lt.
    rewrite uint64_small, int64_small in Hl by lia. eauto. }
  intros path fs0 r fs0' q c. apply NewStore_keeps.
Qed.

Lemma index_size_invariant_witness :
  exists s1 fs1,
    Store_Set value1 store_fresh fs_fresh = (Ok 0, s1, fs1)
    /\ index_inv s1 fs1.
Proof.
  destruct Set_value1 as (s1&fs1&HS&_).
  exists s1, fs1. split; [exact HS|].
  exact (proj1 (index_size_invariant store_fresh fs_fresh
                  (store_inv_index_inv _ _ _ store_inv_test_db))
           value1 0 s1 fs1 HS).
Defined.

(** ** Enumeration after N appends *)

(** [Set] called on each payload of [ps] in turn; the ordinals returned. *)
Fixpoint Set_all (ps : list (list byte)) (s : Store)
    (fs : gmap string (list byte))
    : res error (list Z) * Store * gmap string (list byte) :=
  match ps with
  | [] => (Ok [], s, fs)
  | p :: rest =>
      match Store_Set p s fs with
      | (Err e, s1, fs1) => (Err e, s1, fs1)
      | (Ok n, s1, fs1) =>
          match Set_all rest s1 fs1 with
          | (Ok ns, s2, fs2) => (Ok (n :: ns), s2, fs2)
          | (Err e, s2, fs2) => (Err e, s2, fs2)
          end
      end
  end.

Lemma Store_Set_ok_store_inv recs P s fs :
  store_inv recs s fs -> len P < 2 ^ 32 ->
  len (data_of recs) + (5 + len P) <= max_off ->
  16 * len recs + 16 <= max_off ->
  exists s' fs',
    Store_Set P s fs = (Ok (len recs), s', fs')
    /\ store_inv (recs ++ [P]) s' fs'.
Proof.
  intros Hinv HP Hdm Him.
  pose proof (store_inv_index_inv _ _ _ Hinv) as Hii.
  pose proof Hinv as [].
  pose proof (Store_Set_ok P _ _ _ _ Hii si_data0 si_index0 Hdm) as HS.
  rewrite len_index_of, si_count0 in HS. specialize (HS Him).
  eexists _, _. split; [exact HS|].
  now apply (Store_Set_store_inv recs P) in HS as [_ HS].
Qed.

Lemma Set_all_store_inv ps :
  forall recs s fs ns s' fs',
    store_inv recs s fs -> Forall (fun p => len p < 2 ^ 32) ps ->
    Set_all ps s fs = (Ok ns, s', fs') ->
    store_inv (recs ++ ps) s' fs' /\ ns = (numbered (len recs) ps).*1.
Proof.
  induction ps as [|p ps IH]; intros recs s fs ns s' fs' Hinv Hsm; cbn [Set_all].
  - intros [= <- <- <-]. now rewrite app_nil_r.
  - apply Forall_cons in Hsm as [Hp Hsm].
    destruct (Store_Set p s fs) as [[[n|e] s1] fs1] eqn:HS; [|discriminate].
    apply (Store_Set_store_inv recs) in HS as [-> Hinv1]; auto.
    destruct (Set_all ps s1 fs1) as [[[ms|e] s2] fs2] eqn:HA; [|discriminate].
    intros [= <- <- <-].
    apply (IH (recs ++ [p])) in HA as [Hinv2 ->]; auto.
    rewrite <- app_assoc in Hinv2. split; [exact Hinv2|].
    cbn [numbered fmap list_fmap fst]. rewrite len_app, len_cons, len_nil.
    now rewrite Z.add_0_r.
Qed.

(** C5, as stated, fails: after one successful append, of [1<<20 + 1]
    bytes, [List] returns the invalid-length error and no pair. *)
Lemma List_after_big_append_fails :
  exists s1 fs1,
    Set_all [big_payload] store_fresh fs_fresh = (Ok [0], s1, fs1)
    /\ (Store_List s1 fs1).1
       = Err (Errorf "invalid value length %d at line %d" [1048577; 0])
    /\ (Store_List s1 fs1).1 <> Ok [(0, big_payload)].
Proof.
  destruct Set_big_payload as (s1&fs1&HS&_&Hinv).
  exists s1, fs1. cbn [Set_all]. rewrite HS. split; [reflexivity|].
  pose proof (Store_List_big [] big_payload [] s1 fs1 Hinv (Forall_nil_2 _))
    as HL.
  rewrite len_big_payload in HL. specialize (HL ltac:(lia)).
  split; [exact HL|]. rewrite HL. discriminate.
Qed.

(** C5, amended. After N successful appends, each of at most [1<<20] bytes,
    to a freshly created store, the ordinals returned were 0..N-1, [List]
    returns exactly the N pairs (ordinal, payload) in ascending order,
    [ListAllReverse] the same pairs in descending order, each with its
    forward ordinal; [ListAllReverse] on an empty store returns the empty
    list. *)
Theorem List_after_appends (path : string) (fs0 fs1 fs : gmap string (list byte))
    (s0 s : Store) (ps : list (list byte)) (ns : list Z) :
  fs0 !! path = None -> fs0 !! (path +:+ ".idx") = None ->
  NewStore path fs0 = Some (Ok s0, fs1) ->
  Forall small20 ps ->
  Set_all ps s0 fs1 = (Ok ns, s, fs) ->
  ns = (numbered 0 ps).*1
  /\ (Store_List s fs).1 = Ok (numbered 0 ps)
  /\ (Store_ListAllReverse s fs).1 = Ok (rev (numbered 0 ps))
  /\ length (numbered 0 ps) = length ps
  /\ (forall (i : nat) p, ps !! i = Some p ->
        numbered 0 ps !! i = Some (Z.of_nat i, p))
  /\ (forall s' fs', lineCount s' = 0 ->
        Store_ListAllReverse s' fs' = (Ok [], s')).
Proof.
  intros Hd Hi HN Hsm HA.
  rewrite NewStore_fresh in HN by auto. injection HN as <- <-.
  apply (Set_all_store_inv ps []) in HA as [Hinv ->];
    auto using store_inv_fresh, Forall_small20_small.
  cbn [app] in Hinv. split; [reflexivity|].
  split; [now apply (Store_List_spec ps)|].
  split; [now apply (Store_ListAllReverse_spec ps)|].
  split; [apply length_numbered|].
  split.
  - intros i p Hp. rewrite numbered_lookup, Hp. cbn. now rewrite Z.add_0_l.
  - intros s' fs' Hz. unfold Store_ListAllReverse. now rewrite Hz.
Qed.

Definition value2 : list byte := list_byte_of_string "value2".

Lemma small20_values : Forall small20 [value1; value2].
Proof.
  constructor; [now vm_compute|constructor; [now vm_compute|constructor]].
Qed.

Lemma List_after_appends_witness :
  exists s fs,
    Set_all [value1; value2] store_fresh fs_fresh = (Ok [0; 1], s, fs)
    /\ (Store_List s fs).1 = Ok [(0, value1); (1, value2)]
    /\ (Store_ListAllReverse s fs).1 = Ok [(1, value2); (0, value1)].
Proof.
  destruct Set_value1 as (s1&fs1&HS1&_&Hinv1).
  destruct (Store_Set_ok_store_inv [value1] value2 s1 fs1 Hinv1
              ltac:(now vm_compute) ltac:(now vm_compute) ltac:(now vm_compute))
    as (s2&fs2&HS2&_).
  change (len [value1]) with 1 in HS2.
  assert (Set_all [value1; value2] store_fresh fs_fresh = (Ok [0; 1], s2, fs2))
    as HA by (cbn [Set_all]; now rewrite HS1, HS2).
  pose proof small20_values as Hsm.
  destruct (List_after_appends "test.db" ∅ fs_fresh fs2 store_fresh s2
              [value1; value2] [0; 1] (lookup_empty _) (lookup_empty _)
              NewStore_test_db Hsm HA) as (_&HL&HR&_).
  exists s2, fs2. split; [exact HA|]. split; [exact HL|exact HR].
Defined.

(** * Further properties of the code *)

Lemma value2_fits : len value2 < 2 ^ 32.
Proof. now vm_compute. Qed.

Lemma value2_data_room : len (data_of [value1]) + (5 + len value2) <= max_off.
Proof. now vm_compute. Qed.

Lemma value2_index_room : 16 * len [value1] + 16 <= max_off.
Proof. now vm_compute. Qed.

(** ** Set *)

(** X1. [Set] is append-only. A [Set] that returns an ordinal returns the
    old [lineCount] and raises it by one; the data file becomes its old
    contents followed by the record (tag 0, the payload length modulo 2^32
    in four little-endian bytes, the payload), the index file its old
    contents followed by the entry (the ordinal, the old size of the data
    file); no other file changes. *)
Theorem Set_is_append_only (P : list byte) (s s' : Store)
    (fs fs' : gmap string (list byte)) (n : Z) :
  index_inv s fs -> Store_Set P s fs = (Ok n, s', fs') ->
  n = lineCount s /\ lineCount s' = lineCount s + 1
  /\ exists d i,
       fs !! name (file s) = Some d /\ fs !! name (indexFile s) = Some i
       /\ fs' !! name (file s)
          = Some (d ++ [Byte.x00] ++ le_split 4 (len P mod 2 ^ 32) ++ P)
       /\ fs' !! name (indexFile s)
          = Some (i ++ le_split 8 (lineCount s) ++ le_split 8 (len d))
       /\ forall q, q <> name (file s) -> q <> name (indexFile s) ->
                    fs' !! q = fs !! q.
Proof.
  intros Hinv HS.
  pose proof (index_inv_names _ _ Hinv) as Hne.
  pose proof Hinv as [Hof Hoi Haf Hai Hn (d&Hd&Hdmax) (i&Hi&Hil&Himax)].
  destruct (Store_Set_room _ _ _ _ _ _ _ _ Hinv Hd Hi HS) as [Hdm Him].
  rewrite (Store_Set_ok _ _ _ _ _ Hinv Hd Hi Hdm Him) in HS.
  injection HS as <- <- <-. store_simpl.
  split; [reflexivity|]. split; [reflexivity|].
  exists d, i. split; [exact Hd|]. split; [exact Hi|].
  split; [fs_lookup|]. split.
  - unfold make_indexEntry. pose proof (len_nonneg d). pose proof max_off_lt.
    rewrite uint64_small by lia. fs_lookup.
  - intros q Q1 Q2. fs_lookup.
Qed.

Lemma Set_is_append_only_witness :
  exists s1 fs1,
    Store_Set value1 store_fresh fs_fresh = (Ok 0, s1, fs1)
    /\ lineCount s1 = 1
    /\ fs1 !! "test.db" = Some ([Byte.x00] ++ le_split 4 6 ++ value1)
    /\ fs1 !! "test.db.idx" = Some (le_split 8 0 ++ le_split 8 0).
Proof.
  destruct Set_value1 as (s1&fs1&HS&_).
  destruct (Set_is_append_only value1 store_fresh s1 fs_fresh fs1 0
              (store_inv_index_inv _ _ _ store_inv_test_db) HS)
    as (_&Hc&d&i&Hd&Hi&Hd'&Hi'&_).
  injection Hd as <-. injection Hi as <-.
  exists s1, fs1. split; [exact HS|]. split; [exact Hc|].
  split; [exact Hd'|exact Hi'].
Defined.

(** X2. Ordinals are dense and monotonic. When each of N successive [Set]
    calls on a store returns an ordinal, the ordinals are [lineCount],
    [lineCount + 1], ..., [lineCount + N - 1] in order, with no gap and no
    reuse, and [lineCount] ends N higher. *)
Theorem Set_ordinals_monotonic (ps : list (list byte)) :
  forall (s s' : Store) (fs fs' : gmap string (list byte)) (ns : list Z),
    index_inv s fs -> Set_all ps s fs = (Ok ns, s', fs') ->
    ns = seqZ (lineCount s) (len ps)
    /\ lineCount s' = lineCount s + len ps.
Proof.
  induction ps as [|p ps IH]; intros s s' fs fs' ns Hinv; cbn [Set_all].
  - intros [= <- <- <-]. rewrite len_nil, Z.add_0_r. now rewrite seqZ_nil.
  - destruct (Store_Set p s fs) as [[[n|e] s1] fs1] eqn:HS; [|discriminate].
    destruct (Set_all ps s1 fs1) as [[[ms|e] s2] fs2] eqn:HA; [|discriminate].
    intros [= <- <- <-].
    pose proof (Store_Set_index_inv _ _ _ _ _ _ Hinv HS) as Hinv1.
    destruct (IH _ _ _ _ _ Hinv1 HA) as [-> ->].
    pose proof Hinv as [_ _ _ _ _ (d&Hd&_) (i&Hi&_)].
    destruct (Store_Set_room _ _ _ _ _ _ _ _ Hinv Hd Hi HS) as [Hdm Him].
    rewrite (Store_Set_ok _ _ _ _ _ Hinv Hd Hi Hdm Him) in HS.
    injection HS as <- <- <-. store_simpl.
    pose proof (len_nonneg ps). rewrite len_cons.
    rewrite (seqZ_cons (lineCount s)) by lia.
    split; [|lia]. do 2 f_equal; lia.
Qed.

Lemma Set_ordinals_monotonic_witness :
  exists s fs,
    Set_all [value1; value2] store_fresh fs_fresh = (Ok [0; 1], s, fs)
    /\ lineCount s = 2.
Proof.
  destruct Set_value1 as (s1&fs1&HS1&_&Hinv1).
  destruct (Store_Set_ok_store_inv [value1] value2 s1 fs1 Hinv1
              value2_fits value2_data_room value2_index_room)
    as (s2&fs2&HS2&_).
  change (len [value1]) with 1 in HS2.
  assert (Set_all [value1; value2] store_fresh fs_fresh = (Ok [0; 1], s2, fs2))
    as HA by (cbn [Set_all]; now rewrite HS1, HS2).
  destruct (Set_ordinals_monotonic [value1; value2] store_fresh s2 fs_fresh fs2
              [0; 1] (store_inv_index_inv _ _ _ store_inv_test_db) HA)
    as [_ Hc].
  exists s2, fs2. split; [exact HA|exact Hc].
Defined.

(** Looking line [k] up when the two files start with the records and the
    entries of [recs], whatever follows them. *)
Lemma read_line_prefix recs ipost dpost s fs (k : nat) p :
  closed (file s) = false -> closed (indexFile s) = false ->
  fs !! name (indexFile s) = Some (index_of recs ++ ipost) ->
  fs !! name (file s) = Some (data_of recs ++ dpost) ->
  len (index_of recs ++ ipost) <= max_off ->
  len (data_of recs ++ dpost) <= max_off ->
  Forall (fun p => len p < 2 ^ 32) recs -> recs !! k = Some p ->
  (read_line (Z.of_nat k) s fs).1
  = if 2 ^ 20 <? len p
    then Err (Errorf "invalid value length %d at line %d" [len p; Z.of_nat k])
    else Ok p.
Proof.
  intros Hcf Hci Hi Hd Him Hdm Hsm Hk. pose proof (lookup_len_lt _ _ _ Hk).
  eapply (read_line_spec _ _ p (index_of (take k recs))
            (index_from (Z.of_nat k + 1)
               (len (data_of (take k recs)) + (5 + len p)) (drop (S k) recs)
             ++ ipost)
            (data_of (take k recs)) (data_of (drop (S k) recs) ++ dpost));
    eauto using Forall_lookup_small.
  - rewrite (index_of_split _ _ _ Hk). now rewrite <- !app_assoc.
  - autorewrite with len. unfold len in *. rewrite length_take. lia.
  - rewrite (data_of_split _ _ _ Hk). now rewrite <- !app_assoc.
Qed.

(** X3. [Set] leaves every line already in the store as it was: for each
    ordinal below the old record count, [Get] on the store after a [Set]
    that returned an ordinal gives what it gave before, whatever the size of
    the payload appended. *)
Theorem Set_keeps_earlier_lines (recs : list (list byte)) (P : list byte)
    (s s' : Store) (fs fs' : gmap string (list byte)) (n : Z) (k : nat) :
  store_inv recs s fs -> Store_Set P s fs = (Ok n, s', fs') ->
  (k < length recs)%nat ->
  (Store_Get (Z.of_nat k) s' fs').1 = (Store_Get (Z.of_nat k) s fs).1.
Proof.
  intros Hinv HS Hk.
  destruct (lookup_lt_is_Some_2 recs k Hk) as [p Hp].
  rewrite (Store_Get_spec _ _ _ _ _ Hinv Hp).
  pose proof (store_inv_index_inv _ _ _ Hinv) as Hii.
  pose proof (index_inv_names _ _ Hii) as Hne.
  pose proof Hinv as [].
  destruct (Store_Set_room _ _ _ _ _ _ _ _ Hii si_data0 si_index0 HS)
    as [Hdm Him].
  rewrite (Store_Set_ok _ _ _ _ _ Hii si_data0 si_index0 Hdm Him) in HS.
  injection HS as <- <- <-.
  unfold Store_Get. store_simpl. rewrite si_count0.
  pose proof (lookup_len_lt _ _ _ Hp).
  destruct (Z.leb_spec (len recs + 1) (Z.of_nat k)); [lia|].
  apply (read_line_prefix recs (make_indexEntry (len recs) (len (data_of recs)))
           (make_record (uint32 (len P)) P));
    store_simpl; auto; try fs_lookup.
  - autorewrite with len in *. lia.
  - autorewrite with len in *. lia.
Qed.

Lemma Set_keeps_earlier_lines_witness :
  exists s1 fs1 s2 fs2,
    Store_Set value1 store_fresh fs_fresh = (Ok 0, s1, fs1)
    /\ Store_Set value2 s1 fs1 = (Ok 1, s2, fs2)
    /\ (Store_Get 0 s2 fs2).1 = (Store_Get 0 s1 fs1).1.
Proof.
  destruct Set_value1 as (s1&fs1&HS1&_&Hinv1).
  destruct (Store_Set_ok_store_inv [value1] value2 s1 fs1 Hinv1
              value2_fits value2_data_room value2_index_room)
    as (s2&fs2&HS2&_).
  change (len [value1]) with 1 in HS2.
  exists s1, fs1, s2, fs2. split; [exact HS1|]. split; [exact HS2|].
  exact (Set_keeps_earlier_lines [value1] value2 s1 s2 fs1 fs2 1 0 Hinv1 HS2
           (Nat.lt_0_succ 0)).
Defined.

(** X4. Lookup after appends. In a store built by appending the payloads
    [recs], [Get(k)] returns the k-th payload appended, for every ordinal k
    below the count whose payload is at most [1<<20] bytes long. *)
Theorem Get_returns_kth_payload (recs : list (list byte)) (s : Store)
    (fs : gmap string (list byte)) (k : nat) (p : list byte) :
  store_inv recs s fs -> recs !! k = Some p -> len p <= 2 ^ 20 ->
  (Store_Get (Z.of_nat k) s fs).1 = Ok p.
Proof.
  intros Hinv Hk Hp. rewrite (Store_Get_spec _ _ _ _ _ Hinv Hk).
  destruct (Z.ltb_spec (2 ^ 20) (len p)); [lia|reflexivity].
Qed.

Lemma value1_small : len value1 <= 2 ^ 20.
Proof. now vm_compute. Qed.

Lemma Get_returns_kth_payload_witness :
  exists s1 fs1,
    Store_Set value1 store_fresh fs_fresh = (Ok 0, s1, fs1)
    /\ (Store_Get 0 s1 fs1).1 = Ok value1.
Proof.
  destruct Set_value1 as (s1&fs1&HS1&_&Hinv1).
  exists s1, fs1. split; [exact HS1|].
  exact (Get_returns_kth_payload [value1] s1 fs1 0 value1 Hinv1 eq_refl
           value1_small).
Defined.

(** X7. After a [Set] that returned ordinal [n], [GetLastLine] returns [n]. *)
Theorem GetLastLine_after_Set (P : list byte) (s s' : Store)
    (fs fs' : gmap string (list byte)) (n : Z) :
  index_inv s fs -> Store_Set P s fs = (Ok n, s', fs') ->
  Store_GetLastLine s' = Ok n.
Proof.
  intros Hinv HS.
  pose proof Hinv as [_ _ _ _ _ (d&Hd&_) (i&Hi&Hil&_)].
  destruct (Store_Set_room _ _ _ _ _ _ _ _ Hinv Hd Hi HS) as [Hdm Him].
  rewrite (Store_Set_ok _ _ _ _ _ Hinv Hd Hi Hdm Him) in HS.
  injection HS as <- <- <-. unfold Store_GetLastLine. store_simpl.
  pose proof (len_nonneg i).
  destruct (Z.eqb_spec (lineCount s + 1) 0); [lia|]. f_equal. lia.
Qed.

Lemma GetLastLine_after_Set_witness :
  exists s1 fs1,
    Store_Set value1 store_fresh fs_fresh = (Ok 0, s1, fs1)
    /\ Store_GetLastLine s1 = Ok 0.
Proof.
  destruct Set_value1 as (s1&fs1&HS1&_).
  exists s1, fs1. split; [exact HS1|].
  exact (GetLastLine_after_Set value1 store_fresh s1 fs_fresh fs1 0
           (store_inv_index_inv _ _ _ store_inv_test_db) HS1).
Defined.

(** Two stores built from the same payloads answer [Get] alike. *)
Lemma Get_determined recs s s' fs fs' (k : nat) :
  store_inv recs s fs -> store_inv recs s' fs' ->
  (Store_Get (Z.of_nat k) s fs).1 = (Store_Get (Z.of_nat k) s' fs').1.
Proof.
  intros Hinv Hinv'. destruct (recs !! k) as [p|] eqn:Hk.
  - now rewrite (Store_Get_spec _ _ _ _ _ Hinv Hk),
      (Store_Get_spec _ _ _ _ _ Hinv' Hk).
  - apply lookup_ge_None_1 in Hk. destruct Hinv, Hinv'.
    unfold Store_Get. rewrite si_count0, si_count1.
    destruct (Z.leb_spec (len recs) (Z.of_nat k)); [reflexivity|].
    unfold len in *. lia.
Qed.

(** ** Enumeration *)

(** X5. [List] reads the data file only. When the data file starts with
    [lineCount] well-formed records of at most [1<<20] bytes each, [List]
    returns their payloads numbered from 0, whatever the index file holds
    and whatever bytes follow the last of those records. *)
Theorem List_reads_data_only (recs : list (list byte)) (post : list byte)
    (s : Store) (fs : gmap string (list byte)) :
  closed (file s) = false ->
  fs !! name (file s) = Some (data_of recs ++ post) ->
  lineCount s = len recs -> Forall small20 recs ->
  (Store_List s fs).1 = Ok (numbered 0 recs).
Proof.
  intros Hc Hd Hn Hsm. unfold Store_List.
  rewrite (Seek_start_ok _ _ _ (data_of recs ++ post))
    by (auto; unfold max_off; lia).
  rewrite Hn, to_nat_len, <- (Nat.add_0_r (length recs)).
  now rewrite (List_loop_app recs 0 [] post 0 [] _ fs (data_of recs ++ post))
    by io_side.
Qed.

Lemma List_reads_data_only_witness :
  (Store_List
     (mkStore (mkFile "d" 0 true false) (mkFile "d.idx" 0 true false) 1)
     (<["d" := data_of [value1] ++ [Byte.xff]]> ∅)).1
  = Ok [(0, value1)].
Proof.
  apply (List_reads_data_only [value1] [Byte.xff]
           (mkStore (mkFile "d" 0 true false) (mkFile "d.idx" 0 true false) 1)
           (<["d" := data_of [value1] ++ [Byte.xff]]> ∅)).
  - reflexivity.
  - apply lookup_insert_eq.
  - reflexivity.
  - constructor; [exact value1_small|constructor].
Defined.

(** X6. The three read paths agree. In a store built by appending payloads
    of at most [1<<20] bytes, [List] returns one pair per record,
    [ListAllReverse] returns exactly the reverse of that list, and the pair
    at position k of [List] is (k, payload) with the payload [Get(k)]
    returns. *)
Theorem List_ListAllReverse_Get_agree (recs : list (list byte)) (s : Store)
    (fs : gmap string (list byte)) :
  store_inv recs s fs -> Forall small20 recs ->
  exists l,
    (Store_List s fs).1 = Ok l
    /\ (Store_ListAllReverse s fs).1 = Ok (rev l)
    /\ length l = Z.to_nat (lineCount s)
    /\ forall k : nat,
         (k < length l)%nat ->
         exists p, l !! k = Some (Z.of_nat k, p)
                   /\ (Store_Get (Z.of_nat k) s fs).1 = Ok p.
Proof.
  intros Hinv Hsm. exists (numbered 0 recs).
  split; [now apply Store_List_spec|].
  split; [now apply Store_ListAllReverse_spec|].
  split.
  { destruct Hinv. now rewrite length_numbered, si_count0, to_nat_len. }
  intros k Hk. rewrite length_numbered in Hk.
  destruct (lookup_lt_is_Some_2 recs k Hk) as [p Hp]. exists p.
  rewrite numbered_lookup, Hp. cbn [fmap option_fmap option_map].
  rewrite Z.add_0_l. split; [reflexivity|].
  rewrite (Store_Get_spec _ _ _ _ _ Hinv Hp).
  pose proof (proj1 (Forall_lookup _ _) Hsm _ _ Hp) as Hp20.
  unfold small20 in Hp20.
  destruct (Z.ltb_spec (2 ^ 20) (len p)); [lia|reflexivity].
Qed.

Lemma small20_value1 : Forall small20 [value1].
Proof. constructor; [exact value1_small|constructor]. Qed.

Lemma List_ListAllReverse_Get_agree_witness :
  exists s1 fs1 l,
    Store_Set value1 store_fresh fs_fresh = (Ok 0, s1, fs1)
    /\ (Store_List s1 fs1).1 = Ok l
    /\ (Store_ListAllReverse s1 fs1).1 = Ok (rev l).
Proof.
  destruct Set_value1 as (s1&fs1&HS1&_&Hinv1).
  destruct (List_ListAllReverse_Get_agree [value1] s1 fs1 Hinv1
              small20_value1) as (l&HL&HR&_).
  exists s1, fs1, l. split; [exact HS1|]. split; [exact HL|exact HR].
Defined.

(** ** Reopening *)

(** X8. Persistence of every line. Reopening the path of a store built
    through its operations succeeds without changing any file, rebuilds the
    same [lineCount] from the data file alone, and [Get] on the reopened
    store answers every ordinal as the original store does. *)
Theorem reopen_preserves_lines (recs : list (list byte)) (s : Store)
    (fs : gmap string (list byte)) :
  store_inv recs s fs ->
  exists s3,
    NewStore (name (file s)) fs = Some (Ok s3, fs)
    /\ lineCount s3 = lineCount s
    /\ forall k : nat,
         (Store_Get (Z.of_nat k) s3 fs).1 = (Store_Get (Z.of_nat k) s fs).1.
Proof.
  intros Hinv. destruct (reopen_spec _ _ _ Hinv) as (s3&HN&Hinv3&Hc).
  exists s3. split; [exact HN|]. split; [exact Hc|].
  intros k. now apply (Get_determined recs).
Qed.

Lemma reopen_preserves_lines_witness :
  exists s1 fs1 s3,
    Store_Set value1 store_fresh fs_fresh = (Ok 0, s1, fs1)
    /\ NewStore (name (file s1)) fs1 = Some (Ok s3, fs1)
    /\ lineCount s3 = lineCount s1.
Proof.
  destruct Set_value1 as (s1&fs1&HS1&_&Hinv1).
  destruct (reopen_preserves_lines [value1] s1 fs1 Hinv1) as (s3&HN&Hc&_).
  exists s1, fs1, s3. split; [exact HS1|]. split; [exact HN|exact Hc].
Defined.

(** ** Backup *)




(** X10. [Backup] onto the store's own data path destroys the store.
    Opening the destination truncates the data file and then the index file
    before either is read, so the call returns no error and leaves both
    files empty under an unchanged [lineCount]; afterwards [Get] fails for
    every ordinal the store still counts. *)
Theorem Backup_onto_own_path_truncates (polished : bool) (s : Store)
    (fs : gmap string (list byte)) :
  index_inv s fs ->
  exists s' fs',
    Store_Backup (name (file s)) polished s fs = (None, s', fs')
    /\ fs' !! name (file s) = Some []
    /\ fs' !! name (indexFile s) = Some []
    /\ lineCount s' = lineCount s
    /\ forall line, 0 <= line < lineCount s ->
         (Store_Get line s' fs').1
         = Err (Wrapf "failed to read index entry for line %d: %v" [line]
                  (IOError EOF)).
Proof.
  intros Hinv. pose proof (index_inv_names _ _ Hinv) as Hne.
  pose proof (Store_Backup_own_path polished s fs Hinv) as HB.
  destruct Hinv as [Hof Hoi Haf Hai Hn (d&Hd&Hdmax) (i&Hi&Hil&Himax)].
  eexists _, _. split; [exact HB|].
  split; [fs_lookup|]. split; [rewrite Hn; fs_lookup|].
  split; [reflexivity|].
  intros line Hl. pose proof max_off_lt.
  unfold Store_Get. store_simpl.
  destruct (Z.leb_spec (lineCount s) line); [lia|].
  unfold read_line. store_simpl.
  rewrite uint64_small, int64_small by lia.
  rewrite (Seek_start_ok _ _ _ [])
    by (store_simpl; rewrite ?Hn; first [io_side | lia]).
  store_simpl.
  rewrite (ReadFull_end _ _ _ [])
    by (store_simpl; rewrite ?Hn; first [io_side | lia]).
  reflexivity.
Qed.

Lemma Backup_onto_own_path_truncates_witness :
  exists s1 fs1 s' fs',
    Store_Set value1 store_fresh fs_fresh = (Ok 0, s1, fs1)
    /\ Store_Backup (name (file s1)) false s1 fs1 = (None, s', fs')
    /\ fs' !! name (file s1) = Some []
    /\ fs' !! name (indexFile s1) = Some [].
Proof.
  destruct Set_value1 as (s1&fs1&HS1&_&Hinv1).
  destruct (Backup_onto_own_path_truncates false s1 fs1
              (store_inv_index_inv _ _ _ Hinv1)) as (s'&fs'&HB&Hd&Hi&_).
  exists s1, fs1, s', fs'. split; [exact HS1|]. split; [exact HB|].
  split; [exact Hd|exact Hi].
Defined.

(** ** Polish *)

(** X11. [Polish] is a normalisation that changes no byte. On a store built
    through its operations whose records are all at most [1<<20] bytes long,
    when closing the two live handles reports no error, [Polish] returns no
    error; the data file and the index file hold the same bytes as before;
    copies of both are left at the data path plus [".backup"] and
    [".backup.idx"]; the two temporary paths no longer exist; no other file
    changed; [lineCount] is unchanged and [Get] answers every ordinal as
    before. *)
Theorem Polish_keeps_contents (cr : string -> option ioerr)
    (recs : list (list byte)) (s : Store) (fs : gmap string (list byte)) :
  store_inv recs s fs -> Forall small20 recs ->
  cr (name (file s)) = None -> cr (name (indexFile s)) = None ->
  exists s' fs',
    Store_Polish cr s fs = (None, s', fs')
    /\ store_inv recs s' fs'
    /\ name (file s') = name (file s) /\ name (indexFile s') = name (indexFile s)
    /\ lineCount s' = lineCount s
    /\ fs' !! name (file s) = fs !! name (file s)
    /\ fs' !! name (indexFile s) = fs !! name (indexFile s)
    /\ fs' !! (name (file s) +:+ ".backup") = fs !! name (file s)
    /\ fs' !! ((name (file s) +:+ ".backup") +:+ ".idx")
       = fs !! name (indexFile s)
    /\ fs' !! (name (file s) +:+ ".tmp") = None
    /\ fs' !! (name (file s) +:+ ".idx.tmp") = None
    /\ (forall q,
          q <> name (file s) -> q <> name (file s) +:+ ".idx" ->
          q <> name (file s) +:+ ".backup" ->
          q <> (name (file s) +:+ ".backup") +:+ ".idx" ->
          q <> name (file s) +:+ ".tmp" -> q <> name (file s) +:+ ".idx.tmp" ->
          fs' !! q = fs !! q)
    /\ forall k : nat,
         (Store_Get (Z.of_nat k) s' fs').1 = (Store_Get (Z.of_nat k) s fs).1.
Proof.
  intros Hinv Hsm Hc1 Hc2.
  destruct (Store_Polish_ok cr recs s fs Hinv Hsm Hc1 Hc2)
    as (fs'&HP&Hd&Hi&Hbd&Hbi&Ht&Hti&Hfr).
  pose proof Hinv as [].
  assert (store_inv recs
            (mkStore (mkFile (name (file s)) 0 true false)
               (mkFile (name (file s) +:+ ".idx") 0 true false) (len recs)) fs')
    as Hinv' by (split; store_simpl; auto).
  eexists _, fs'. split; [exact HP|]. store_simpl.
  split; [exact Hinv'|]. split; [reflexivity|]. split; [now rewrite si_name0|].
  split; [congruence|]. split; [congruence|].
  split; [rewrite si_name0; congruence|]. split; [congruence|].
  split; [congruence|]. split; [exact Ht|]. split; [exact Hti|].
  split; [exact Hfr|].
  intros k. now apply (Get_determined recs).
Qed.

Lemma Polish_keeps_contents_witness :
  exists s1 fs1 s' fs',
    Store_Set value1 store_fresh fs_fresh = (Ok 0, s1, fs1)
    /\ Store_Polish (fun _ => None) s1 fs1 = (None, s', fs')
    /\ fs' !! name (file s1) = fs1 !! name (file s1)
    /\ (Store_Get 0 s' fs').1 = (Store_Get 0 s1 fs1).1.
Proof.
  destruct Set_value1 as (s1&fs1&HS1&_&Hinv1).
  destruct (Polish_keeps_contents (fun _ => None) [value1] s1 fs1 Hinv1
              small20_value1 eq_refl eq_refl)
    as (s'&fs'&HP&_&_&_&_&Hd&_&_&_&_&_&_&HG).
  exists s1, fs1, s', fs'. split; [exact HS1|]. split; [exact HP|].
  split; [exact Hd|exact (HG 0%nat)].
Defined.

(** The first record longer than [1<<20], if there is one. *)
Lemma split_first_big recs :
  Forall small20 recs
  \/ exists good big rest,
       recs = good ++ big :: rest /\ Forall small20 good /\ 2 ^ 20 < len big.
Proof.
  induction recs as [|p recs IH]; [left; constructor|].
  destruct (Z_le_gt_dec (len p) (2 ^ 20)) as [Hp|Hp].
  - destruct IH as [IH|(good&big&rest&->&Hg&Hb)].
    + left. now constructor.
    + right. exists (p :: good), big, rest.
      split; [reflexivity|]. split; [now constructor|assumption].
  - right. exists [], p, recs.
    split; [reflexivity|]. split; [constructor|lia].
Qed.

(** X12. A failed [Polish] leaves the store intact. When the rewrite meets
    a record longer than [1<<20] bytes, [Polish] returns the invalid-length
    error naming that record's length and ordinal; the data file and the
    index file hold the same bytes as before, [lineCount] and the two live
    handles are as usable as before (nothing was closed or renamed). *)
Theorem Polish_failure_keeps_store (cr : string -> option ioerr)
    (good : list (list byte)) (big : list byte) (rest : list (list byte))
    (s : Store) (fs : gmap string (list byte)) :
  store_inv (good ++ big :: rest) s fs -> Forall small20 good ->
  2 ^ 20 < len big ->
  exists s' fs',
    Store_Polish cr s fs
    = (Some (Errorf "invalid value length %d at line %d" [len big; len good]),
       s', fs')
    /\ store_inv (good ++ big :: rest) s' fs'
    /\ fs' !! name (file s) = fs !! name (file s)
    /\ fs' !! name (indexFile s) = fs !! name (indexFile s).
Proof.
  intros Hinv Hsm Hbig. pose proof Hinv as [].
  apply Forall_app in si_small0 as [_ [Hb32 _]%Forall_cons].
  rewrite si_name0 in *.
  pose proof (len_nonneg good). pose proof (len_nonneg rest).
  pose proof (len_nonneg (data_of good)).
  pose proof (len_data_of_app_le good (big :: rest)).
  rewrite len_app, len_cons in si_index_max0, si_count0.
  pose proof max_off_lt.
  set (d := data_of (good ++ big :: rest)) in *.
  set (i := index_of (good ++ big :: rest)) in *.
  assert (len i <= max_off)
    by (unfold i; autorewrite with len; lia).
  unfold Store_Polish.
  rewrite (Store_backupTo_ok _ _ _ _ d i);
    auto; rewrite ?si_name0; try names_ne.
  rewrite !OpenFile_trunc. store_simpl.
  rewrite (Seek_start_ok _ _ _ d) by (first [io_side | lia]).
  rewrite si_count0.
  replace (Z.to_nat (len good + (1 + len rest)))
    with (length good + S (length rest))%nat by (unfold len; lia).
  assert (d = [] ++ data_of good ++ make_record (len big) big ++ data_of rest)
    as Hd by (unfold d; now rewrite data_of_app, data_of_cons).
  rewrite (Polish_loop_app good _ [] (make_record (len big) big ++ data_of rest)
             0 0 _ _ _ _ d [] []);
    try io_side; try names_ne; try (autorewrite with len; lia).
  cbn [Polish_loop app]. change (len (@nil byte)) with 0. rewrite ?Z.add_0_l.
  rewrite (read_record_spec _ big (data_of good) (data_of rest) _ _ d)
    by io_side.
  destruct (Z.ltb_spec (2 ^ 20) (len big)); [|lia].
  eexists _, _. split; [reflexivity|].
  split; [|split; fs_lookup].
  destruct Hinv. split; store_simpl; auto; try fs_lookup.
  - rewrite si_name1. fs_lookup.
  - autorewrite with len. lia.
Qed.

Lemma big_payload_is_big : 2 ^ 20 < len big_payload.
Proof. rewrite len_big_payload. lia. Qed.

Lemma Polish_failure_keeps_store_witness :
  exists s1 fs1 s' fs',
    Store_Set big_payload store_fresh fs_fresh = (Ok 0, s1, fs1)
    /\ Store_Polish (fun _ => None) s1 fs1
       = (Some (Errorf "invalid value length %d at line %d" [1048577; 0]),
          s', fs')
    /\ fs' !! name (file s1) = fs1 !! name (file s1).
Proof.
  destruct Set_big_payload as (s1&fs1&HS1&_&Hinv1).
  destruct (Polish_failure_keeps_store (fun _ => None) [] big_payload [] s1 fs1
              Hinv1 (Forall_nil_2 _) big_payload_is_big)
    as (s'&fs'&HP&_&Hd&_).
  rewrite len_big_payload in HP.
  exists s1, fs1, s', fs'. split; [exact HS1|]. split; [exact HP|exact Hd].
Defined.

(** ** Payloads above the read-side ceiling *)

(** X13. [Set] has no size limit, the readers have one. For a payload [P]
    longer than [1<<20] bytes whose length fits 32 bits, on a store built
    through its operations with room in both files: [Set] returns the next
    ordinal and the store reopens with the record counted; from then on, in
    every store holding that record at that ordinal, [Get] of the ordinal
    fails with the invalid-length error naming its length and ordinal, and
    [List] and [Polish] fail with an invalid-length error too. *)
Theorem oversized_record_unreadable (recs : list (list byte)) (P : list byte)
    (s : Store) (fs : gmap string (list byte)) :
  store_inv recs s fs -> 2 ^ 20 < len P -> len P < 2 ^ 32 ->
  len (data_of recs) + (5 + len P) <= max_off ->
  16 * len recs + 16 <= max_off ->
  exists s1 fs1 s2,
    Store_Set P s fs = (Ok (len recs), s1, fs1)
    /\ NewStore (name (file s1)) fs1 = Some (Ok s2, fs1)
    /\ lineCount s2 = len recs + 1
    /\ forall more s3 fs3,
         store_inv (recs ++ P :: more) s3 fs3 ->
         (Store_Get (len recs) s3 fs3).1
         = Err (Errorf "invalid value length %d at line %d" [len P; len recs])
         /\ (exists l k,
               (Store_List s3 fs3).1
               = Err (Errorf "invalid value length %d at line %d" [l; k]))
         /\ forall cr, exists l k,
              (Store_Polish cr s3 fs3).1.1
              = Some (Errorf "invalid value length %d at line %d" [l; k]).
Proof.
  intros Hinv Hbig H32 Hdm Him.
  destruct (Store_Set_ok_store_inv recs P s fs Hinv H32 Hdm Him)
    as (s1&fs1&HS&Hinv1).
  destruct (reopen_spec _ _ _ Hinv1) as (s2&HN&_&Hc).
  exists s1, fs1, s2. split; [exact HS|]. split; [exact HN|].
  split.
  { destruct Hinv1. rewrite Hc, si_count0. autorewrite with len. lia. }
  intros more s3 fs3 Hinv3. split.
  { unfold len at 1.
    rewrite (Store_Get_spec _ _ _ (length recs) P Hinv3)
      by apply list_lookup_middle, eq_refl.
    destruct (Z.ltb_spec (2 ^ 20) (len P)); [reflexivity|lia]. }
  destruct (split_first_big (recs ++ P :: more))
    as [Hall|(good&big&rest&Heq&Hg&Hb)].
  { apply Forall_app in Hall as [_ [HP _]%Forall_cons].
    unfold small20 in HP. lia. }
  rewrite Heq in Hinv3. split.
  - exists (len big), (len good). now apply (Store_List_big good big rest).
  - intros cr. exists (len big), (len good).
    now apply (Store_Polish_big cr good big rest).
Qed.

Lemma big_payload_fits : len big_payload < 2 ^ 32.
Proof. rewrite len_big_payload. lia. Qed.

Lemma big_payload_data_room :
  len (data_of []) + (5 + len big_payload) <= max_off.
Proof. rewrite len_big_payload. now vm_compute. Qed.

Lemma big_payload_index_room : 16 * len (@nil (list byte)) + 16 <= max_off.
Proof. now vm_compute. Qed.

Lemma oversized_record_unreadable_witness :
  exists s1 fs1 s2,
    Store_Set big_payload store_fresh fs_fresh = (Ok 0, s1, fs1)
    /\ NewStore (name (file s1)) fs1 = Some (Ok s2, fs1)
    /\ lineCount s2 = 1.
Proof.
  destruct (oversized_record_unreadable [] big_payload store_fresh fs_fresh
              store_inv_test_db big_payload_is_big big_payload_fits
              big_payload_data_room big_payload_index_room)
    as (s1&fs1&s2&HS&HN&Hc&_).
  exists s1, fs1, s2. split; [exact HS|]. split; [exact HN|exact Hc].
Defined.

(** ** What the scan of [countLines] accepts and rejects *)

(** The scan over a run of whole records: it counts them and goes on behind
    them. *)
Lemma countLines_loop_app good :
  forall fuel pre post k f fs c,
    closed f = false -> fs !! name f = Some c ->
    c = pre ++ data_of good ++ post -> pos f = len pre ->
    Forall (fun p => len p < 2 ^ 32) good -> len c <= max_off ->
    0 <= k -> k + len good < 2 ^ 64 ->
    countLines_loop (length good + fuel) k f fs
    = countLines_loop fuel (k + len good)
        (with_pos (len pre + len (data_of good)) f) fs.
Proof.
  induction good as [|p good IH];
    intros fuel pre post k f fs c Hc Hf Hs Hp Hsm Hm Hk Hkn.
  - cbn [length Nat.add]. change (data_of []) with (@nil byte).
    rewrite !len_nil, !Z.add_0_r. now rewrite with_pos_id.
  - rewrite data_of_cons in Hs |- *. apply Forall_cons in Hsm as [Hp32 Hsm].
    rewrite len_cons in Hkn |- *.
    pose proof (len_nonneg p). pose proof (len_nonneg pre).
    pose proof (len_nonneg (data_of good)). pose proof (len_nonneg good).
    pose proof (len_nonneg post).
    assert (len c = len pre + (5 + len p) + len (data_of good) + len post)
      as Hlc by (rewrite Hs; autorewrite with len; lia).
    cbn [length Nat.add countLines_loop].
    unfold make_record in Hs.
    change [Byte.x00] with (le_split 1 0) in Hs.
    change (binary_Read 1) with (binary_Read (Z.of_nat 1)).
    change (binary_Read 4) with (binary_Read (Z.of_nat 4)).
    rewrite (binary_Read_ok 1 0 pre
               (le_split 4 (len p) ++ p ++ data_of good ++ post) f fs c)
      by read_side.
    rewrite Z.eqb_refl. cbn [negb].
    rewrite (binary_Read_ok 4 (len p) (pre ++ le_split 1 0)
               (p ++ data_of good ++ post) _ fs c) by read_side.
    rewrite int64_small by (unfold max_off; lia).
    rewrite (Seek_cur_ok _ _ _ c) by (store_simpl; auto; lia).
    rewrite uint64_small by lia.
    rewrite (IH fuel (pre ++ le_split 1 0 ++ le_split 4 (len p) ++ p) post
               (k + 1) _ fs c); try io_side; try lia.
    autorewrite with len. f_equal; [lia|]. pos_eq.
Qed.

Lemma length_data_of_ge good : (length good <= length (data_of good))%nat.
Proof. pose proof (len_data_of_ge good). unfold len in *. lia. Qed.

(** [NewStore] on existing files whose data file starts with whole records:
    the scan resumes behind them with what is left of its bound. *)
Lemma NewStore_scan_from good tail path fs i :
  fs !! path = Some (data_of good ++ tail) ->
  fs !! (path +:+ ".idx") = Some i ->
  Forall (fun p => len p < 2 ^ 32) good ->
  len (data_of good ++ tail) <= max_off ->
  NewStore path fs
  = match countLines_loop (S (length (data_of good ++ tail)) - length good)
            (len good) (mkFile path (len (data_of good)) true false) fs with
    | None => None
    | Some (Err e, _) => Some (Err (Wrapf "failed to count lines: %v" [] e), fs)
    | Some (Ok n, f1) =>
        if negb (len i =? int64 (uint64 (n * 16)))
        then Some (Err (Wrapf "failed to count lines: %v" []
                          (Errorf "index file size %d does not match expected %d"
                             [len i; int64 (uint64 (n * 16))])), fs)
        else Some (Ok (mkStore f1 (mkFile (path +:+ ".idx") 0 true false) n), fs)
    end.
Proof.
  intros Hd Hi Hsm Hm.
  pose proof (len_nonneg good). pose proof (len_data_of_ge good).
  pose proof (len_nonneg tail). pose proof (length_data_of_ge good).
  autorewrite with len in Hm.
  unfold NewStore, OpenFile. rewrite Hd, Hi. unfold countLines. store_simpl.
  rewrite (Seek_start_ok _ _ _ (data_of good ++ tail))
    by (first [io_side | unfold max_off; lia]).
  store_simpl. rewrite Hd. cbn [default from_option]. unfold id.
  replace (S (length (data_of good ++ tail)))
    with (length good + (S (length (data_of good ++ tail)) - length good))%nat
    by (rewrite length_app; lia).
  rewrite (countLines_loop_app good _ [] tail 0 _ fs (data_of good ++ tail));
    try io_side; try (autorewrite with len; unfold max_off in *; lia).
  change (len (@nil byte)) with 0. rewrite !Z.add_0_l.
  replace (length good + (S (length (data_of good ++ tail)) - length good)
           - length good)%nat
    with (S (length (data_of good ++ tail)) - length good)%nat by lia.
  destruct (countLines_loop _ (len good) _ fs) as [[[n|e] f1]|];
    try reflexivity.
  unfold Stat_Size. store_simpl. rewrite Hi.
  destruct (negb (len i =? int64 (uint64 (n * 16)))); reflexivity.
Qed.




Lemma ReadFull_short n part pre f fs c :
  closed f = false -> fs !! name f = Some c -> c = pre ++ part ->
  pos f = len pre -> 0 < len part < n ->
  ReadFull n f fs
  = (len part, Err ErrUnexpectedEOF, with_pos (pos f + len part) f).
Proof.
  intros Hc Hf -> Hp Hn. unfold ReadFull. rewrite Hc, Hf, Hp, drop_len_app.
  destruct (Z.leb_spec n 0); [lia|].
  destruct (Z.eqb_spec (len part) 0); [lia|].
  destruct (Z.ltb_spec (len part) n); [reflexivity|lia].
Qed.



(** X15. A payload cut short is not detected at open. When the data file
    holds whole records followed by a record whose declared length [L]
    exceeds the bytes that follow it, the scan skips [L] bytes with a seek
    (which succeeds past the end of the file), counts the record, and meets
    the end of file at the next read; if the index file has one entry per
    record counted, [NewStore] returns a store whose [lineCount] includes
    the cut record. *)
Theorem NewStore_counts_cut_record (good : list (list byte)) (L : Z)
    (part i : list byte) (path : string) (fs : gmap string (list byte)) :
  fs !! path = Some (data_of good ++ [Byte.x00] ++ le_split 4 L ++ part) ->
  fs !! (path +:+ ".idx") = Some i ->
  Forall (fun p => len p < 2 ^ 32) good ->
  len part < L -> L < 2 ^ 32 ->
  len (data_of good) + 5 + L <= max_off ->
  len i = 16 * (len good + 1) -> len i <= max_off ->
  NewStore path fs
  = Some (Ok (mkStore (mkFile path (len (data_of good) + 5 + L) true false)
                (mkFile (path +:+ ".idx") 0 true false) (len good + 1)),
          fs).
Proof.
  intros Hd Hi Hsm Hcut HL Hm Hli Him.
  pose proof (len_nonneg good). pose proof (len_nonneg part).
  pose proof (len_nonneg (data_of good)). pose proof (len_data_of_ge good).
  pose proof (len_nonneg i). pose proof max_off_lt.
  set (c := data_of good ++ [Byte.x00] ++ le_split 4 L ++ part) in *.
  assert (len c = len (data_of good) + 5 + len part) as Hlc
    by (unfold c; autorewrite with len; lia).
  rewrite (NewStore_scan_from good ([Byte.x00] ++ le_split 4 L ++ part) path fs i)
    by (auto; fold c; lia).
  fold c. pose proof (length_data_of_ge good).
  destruct (S (length c) - length good)%nat as [|[|fuel]] eqn:Hfu;
    [unfold len in *; lia..|].
  cbn [countLines_loop].
  change [Byte.x00] with (le_split 1 0) in c.
  change (binary_Read 1) with (binary_Read (Z.of_nat 1)).
  change (binary_Read 4) with (binary_Read (Z.of_nat 4)).
  rewrite (binary_Read_ok 1 0 (data_of good) (le_split 4 L ++ part) _ fs c)
    by (first [io_side | lia]).
  rewrite Z.eqb_refl. cbn [negb].
  rewrite (binary_Read_ok 4 L (data_of good ++ le_split 1 0) part _ fs c)
    by (first [io_side | subst c; now rewrite <- !app_assoc | lia]).
  rewrite int64_small by lia.
  rewrite (Seek_cur_ok _ _ _ c) by (store_simpl; auto; lia).
  unfold binary_Read.
  rewrite (ReadFull_end _ _ _ c) by (store_simpl; auto; lia).
  rewrite (uint64_small (len good + 1)) by lia.
  rewrite uint64_small, int64_small by lia.
  destruct (Z.eqb_spec (len i) ((len good + 1) * 16)) as [_|Hne]; [|lia].
  cbn [negb]. do 3 f_equal. pos_eq.
Qed.

Lemma NewStore_counts_cut_record_witness :
  NewStore "d" fs_truncated
  = Some (Ok (mkStore (mkFile "d" 10 true false) (mkFile "d.idx" 0 true false) 1),
          fs_truncated).
Proof.
  apply (NewStore_counts_cut_record [] 5 [Byte.x61] (make_indexEntry 0 0) "d"
           fs_truncated).
  - reflexivity.
  - reflexivity.
  - constructor.
  - now vm_compute.
  - now vm_compute.
  - now vm_compute.
  - now vm_compute.
  - now vm_compute.
Defined.



(** ** What [Polish] writes *)

(** X17. [Polish] rebuilds both files from the data file alone. On an open
    store whose data file starts with [lineCount] well-formed records of at
    most [1<<20] bytes each, whatever bytes follow them and whatever the
    index file holds, when closing the two live handles reports no error:
    [Polish] returns no error; the data file becomes exactly those records,
    the index file their entries (ordinals from 0, offsets recomputed); the
    old bytes of both files survive only in the two backup files; and the
    store is left as one built by appending those payloads. *)
Theorem Polish_rebuilds_from_data (cr : string -> option ioerr)
    (recs : list (list byte)) (post i : list byte) (s : Store)
    (fs : gmap string (list byte)) :
  closed (file s) = false -> closed (indexFile s) = false ->
  name (indexFile s) = name (file s) +:+ ".idx" ->
  fs !! name (file s) = Some (data_of recs ++ post) ->
  fs !! name (indexFile s) = Some i ->
  lineCount s = len recs -> Forall small20 recs ->
  len (data_of recs ++ post) <= max_off -> len i <= max_off ->
  16 * len recs <= max_off ->
  cr (name (file s)) = None -> cr (name (indexFile s)) = None ->
  exists s' fs',
    Store_Polish cr s fs = (None, s', fs')
    /\ store_inv recs s' fs'
    /\ name (file s') = name (file s)
    /\ fs' !! name (file s) = Some (data_of recs)
    /\ fs' !! name (indexFile s) = Some (index_of recs)
    /\ fs' !! (name (file s) +:+ ".backup") = Some (data_of recs ++ post)
    /\ fs' !! ((name (file s) +:+ ".backup") +:+ ".idx") = Some i.
Proof.
  intros Hof Hoi Hn Hd Hi Hcnt Hsm Hdm Hm Him Hc1 Hc2.
  rewrite Hn in *.
  pose proof (len_nonneg recs). pose proof (len_nonneg (data_of recs)).
  pose proof (len_nonneg post). pose proof max_off_lt.
  autorewrite with len in Hdm.
  assert (Forall (fun p => len p < 2 ^ 32) recs) as H32.
  { eapply Forall_impl; [exact Hsm|]. unfold small20. intros p Hp. lia. }
  unfold Store_Polish.
  rewrite (Store_backupTo_ok _ _ _ _ (data_of recs ++ post) i);
    auto; rewrite ?Hn; try names_ne;
    [|autorewrite with len; lia].
  rewrite !OpenFile_trunc. store_simpl.
  rewrite (Seek_start_ok _ _ _ (data_of recs ++ post))
    by (first [io_side | autorewrite with len; lia]).
  rewrite Hcnt, to_nat_len, <- (Nat.add_0_r (length recs)).
  rewrite (Polish_loop_app recs 0 [] post 0 0 _ _ _ _ (data_of recs ++ post) [] []);
    try io_side; try names_ne; try (autorewrite with len; lia).
  cbn [Polish_loop app]. store_simpl. change (len (@nil byte)) with 0.
  rewrite ?Z.add_0_l.
  rewrite insert2_insert2 by names_ne.
  fold (index_of recs).
  rewrite (Sync_ok _ _ (data_of recs)) by io_side.
  rewrite (Sync_ok _ _ (index_of recs)) by io_side.
  unfold File_Close. store_simpl. rewrite Hof, Hoi.
  rewrite Hn, Hc1, Hc2. store_simpl.
  unfold Rename.
  fs_eval (data_of recs). fs_eval (index_of recs).
  unfold OpenFile.
  fs_eval (data_of recs). fs_eval (index_of recs).
  store_simpl.
  eexists _, _. split; [reflexivity|]. store_simpl.
  split; [split; store_simpl; auto; try fs_lookup; lia|].
  split; [reflexivity|].
  repeat split; fs_lookup.
Qed.

Lemma Polish_rebuilds_from_data_witness :
  exists s' fs',
    Store_Polish (fun _ => None)
      (mkStore (mkFile "d" 0 true false) (mkFile "d.idx" 0 true false) 1)
      (<["d.idx" := make_indexEntry 7 9]>
         (<["d" := [Byte.x00; Byte.x01; Byte.x00; Byte.x00; Byte.x00; Byte.x61;
                    Byte.x01]]> ∅))
    = (None, s', fs')
    /\ fs' !! "d" = Some (make_record 1 [Byte.x61])
    /\ fs' !! "d.idx" = Some (make_indexEntry 0 0).
Proof.
  destruct (Polish_rebuilds_from_data (fun _ => None) [[Byte.x61]] [Byte.x01]
              (make_indexEntry 7 9)
              (mkStore (mkFile "d" 0 true false) (mkFile "d.idx" 0 true false) 1)
              (<["d.idx" := make_indexEntry 7 9]>
                 (<["d" := [Byte.x00; Byte.x01; Byte.x00; Byte.x00; Byte.x00;
                            Byte.x61; Byte.x01]]> ∅)))
    as (s'&fs'&HP&_&_&Hd&Hi&_);
    [reflexivity|reflexivity|reflexivity|reflexivity|reflexivity|reflexivity
    |constructor; [now vm_compute|constructor]
    |now vm_compute|now vm_compute|now vm_compute|reflexivity|reflexivity|].
  exists s', fs'. split; [exact HP|]. split; [exact Hd|exact Hi].
Defined.

(** ** Opening: what [NewStore] creates, keeps and checks *)



(** X19. Opening always ends and never alters a file that exists. For
    every path and every file system, the scan of [NewStore] returns within
    its bound on the length of the data file, and whatever it returns, every
    file that existed before holds the same bytes afterwards: a store that
    fails to open is reported, never repaired or truncated. *)
Theorem NewStore_never_alters_existing_files (path : string)
    (fs : gmap string (list byte)) :
  exists r fs',
    NewStore path fs = Some (r, fs')
    /\ forall q c, fs !! q = Some c -> fs' !! q = Some c.
Proof.
  destruct (NewStore_total path fs) as [[r fs'] HN].
  exists r, fs'. split; [exact HN|].
  intros q c Hq. exact (NewStore_keeps path fs r fs' q c HN Hq).
Qed.

(** X20. An index file of the wrong size aborts opening. When the data file
    holds exactly the records of [recs] and the index file is not
    [16 * length recs] bytes long, [NewStore] fails with the
    index-size-mismatch error naming the size found and the size expected,
    and changes no file. *)
Theorem NewStore_rejects_index_size (recs : list (list byte)) (i : list byte)
    (path : string) (fs : gmap string (list byte)) :
  fs !! path = Some (data_of recs) -> fs !! (path +:+ ".idx") = Some i ->
  Forall (fun p => len p < 2 ^ 32) recs ->
  len (data_of recs) <= max_off -> 16 * len recs <= max_off ->
  len i <> 16 * len recs ->
  NewStore path fs
  = Some (Err (Wrapf "failed to count lines: %v" []
                 (Errorf "index file size %d does not match expected %d"
                    [len i; 16 * len recs])), fs).
Proof.
  intros Hd Hi H32 Hdm Him Hne.
  rewrite (NewStore_existing recs path fs i) by assumption.
  destruct (Z.eqb_spec (len i) (len recs * 16)); [lia|].
  now rewrite (Z.mul_comm 16).
Qed.

Lemma NewStore_rejects_index_size_witness :
  NewStore "d" (<["d.idx" := []]> (<["d" := make_record 1 [Byte.x61]]> ∅))
  = Some (Err (Wrapf "failed to count lines: %v" []
                 (Errorf "index file size %d does not match expected %d"
                    [0; 16])),
          <["d.idx" := []]> (<["d" := make_record 1 [Byte.x61]]> ∅)).
Proof.
  apply (NewStore_rejects_index_size [[Byte.x61]] [] "d"
           (<["d.idx" := []]> (<["d" := make_record 1 [Byte.x61]]> ∅))).
  - reflexivity.
  - reflexivity.
  - constructor; [now vm_compute|constructor].
  - now vm_compute.
  - now vm_compute.
  - now vm_compute.
Defined.

(** ** After [Close] *)


Lemma Seek_closed off w f fs : closed f = true -> Seek off w f fs = Err ErrClosed.
Proof. intros H. unfold Seek. now rewrite H. Qed.


(** ** What [Get] trusts *)

(** X22. [Get] follows the offset of the index entry and nothing else. For
    an ordinal below [lineCount], when the 16 bytes at [line * 16] of the
    index file end with the offset of a well-formed record of at most
    [1<<20] bytes, [Get] returns that record's payload: the ordinal stored
    in the first 8 bytes of the entry is never compared with [line], and the
    record need not be the [line]-th of the data file. *)
Theorem Get_follows_index_offset (line ord off : Z) (p ipre ipost pre post : list byte)
    (s : Store) (fs : gmap string (list byte)) :
  closed (file s) = false -> closed (indexFile s) = false ->
  0 <= line < lineCount s ->
  fs !! name (indexFile s) = Some (ipre ++ make_indexEntry ord off ++ ipost) ->
  len ipre = line * 16 ->
  len (ipre ++ make_indexEntry ord off ++ ipost) <= max_off ->
  fs !! name (file s) = Some (pre ++ make_record (len p) p ++ post) ->
  off = len pre ->
  len (pre ++ make_record (len p) p ++ post) <= max_off ->
  len p <= 2 ^ 20 ->
  (Store_Get line s fs).1 = Ok p.
Proof.
  intros Hcf Hci Hline Hi Hli Hmi Hd Hoff Hmd Hp.
  pose proof (len_nonneg ipre). pose proof (len_nonneg pre).
  pose proof (len_nonneg ipost). pose proof (len_nonneg post).
  pose proof (len_nonneg p). pose proof max_off_lt.
  set (ci := ipre ++ make_indexEntry ord off ++ ipost) in *.
  set (cd := pre ++ make_record (len p) p ++ post) in *.
  assert (len ci = len ipre + 16 + len ipost) as Hlci
    by (unfold ci; autorewrite with len; lia).
  assert (len cd = len pre + (5 + len p) + len post) as Hlcd
    by (unfold cd; autorewrite with len; lia).
  unfold Store_Get. destruct (Z.leb_spec (lineCount s) line); [lia|].
  unfold read_line.
  rewrite uint64_small, int64_small by lia.
  rewrite (Seek_start_ok _ _ _ ci) by (auto; lia). store_simpl.
  rewrite <- (len_make_indexEntry ord off) at 1.
  rewrite (ReadFull_ok _ ipre ipost _ fs ci) by io_side.
  store_simpl. rewrite drop_8_indexEntry.
  rewrite uint64_small, int64_small by lia.
  rewrite (Seek_start_ok _ _ _ cd) by (auto; lia).
  rewrite (read_record_spec line p pre post _ fs cd) by (first [io_side | lia]).
  destruct (Z.ltb_spec (2 ^ 20) (len p)); [lia|reflexivity].
Qed.

Lemma Get_follows_index_offset_witness :
  (Store_Get 0
     (mkStore (mkFile "d" 0 true false) (mkFile "d.idx" 0 true false) 1)
     (<["d.idx" := make_indexEntry 7 6]>
        (<["d" := make_record 1 [Byte.x61] ++ make_record 1 [Byte.x62]]> ∅))).1
  = Ok [Byte.x62].
Proof.
  apply (Get_follows_index_offset 0 7 6 [Byte.x62] [] [] (make_record 1 [Byte.x61]) []).
  - reflexivity.
  - reflexivity.
  - now vm_compute.
  - reflexivity.
  - reflexivity.
  - now vm_compute.
  - reflexivity.
  - reflexivity.
  - now vm_compute.
  - now vm_compute.
Defined.

(** ** [Polish] when closing a live handle fails *)

(** [Polish] up to the point where it closes the live handles, on a store
    built through its operations whose records pass the read-side checks:
    the backup and the two temporaries are written, and the first close
    that reports an error ends the call there. *)
Lemma Store_Polish_close_err cr recs s fs :
  store_inv recs s fs -> Forall small20 recs ->
  exists fsT,
    fsT !! name (file s) = Some (data_of recs)
    /\ fsT !! (name (file s) +:+ ".idx") = Some (index_of recs)
    /\ fsT !! (name (file s) +:+ ".tmp") = Some (data_of recs)
    /\ fsT !! (name (file s) +:+ ".idx.tmp") = Some (index_of recs)
    /\ (forall e, cr (name (file s)) = Some e ->
          exists s',
          Store_Polish cr s fs
          = (Some (Wrapf "failed to close original data file: %v" []
                     (IOError e)), s', fsT)
          /\ closed (file s') = true /\ closed (indexFile s') = false
          /\ lineCount s' = lineCount s)
    /\ (forall e, cr (name (file s)) = None ->
          cr (name (file s) +:+ ".idx") = Some e ->
          exists s',
          Store_Polish cr s fs
          = (Some (Wrapf "failed to close original index file: %v" []
                     (IOError e)), s', fsT)
          /\ closed (file s') = true /\ closed (indexFile s') = true
          /\ lineCount s' = lineCount s).
Proof.
  intros [] Hsm.
  rewrite si_name0 in *.
  pose proof (len_nonneg recs). pose proof (len_nonneg (data_of recs)).
  pose proof max_off_lt.
  unfold Store_Polish.
  rewrite (Store_backupTo_ok _ _ _ _ (data_of recs) (index_of recs));
    auto; rewrite ?si_name0; try names_ne;
    [|autorewrite with len; lia].
  rewrite !OpenFile_trunc. store_simpl.
  rewrite (Seek_start_ok _ _ _ (data_of recs)) by (first [io_side | lia]).
  rewrite si_count0, to_nat_len, <- (Nat.add_0_r (length recs)).
  rewrite (Polish_loop_app recs 0 [] [] 0 0 _ _ _ _ (data_of recs) [] []);
    try io_side; try names_ne; try (autorewrite with len; lia);
    [|now rewrite app_nil_r].
  cbn [Polish_loop app]. store_simpl. change (len (@nil byte)) with 0. rewrite ?Z.add_0_l.
  rewrite insert2_insert2 by names_ne.
  fold (index_of recs).
  rewrite (Sync_ok _ _ (data_of recs)) by io_side.
  rewrite (Sync_ok _ _ (index_of recs)) by io_side.
  unfold File_Close. store_simpl. rewrite si_open_f0, si_open_i0.
  rewrite si_name0.
  exists (<[name (file s) +:+ ".idx.tmp" := index_of recs]>
            (<[name (file s) +:+ ".tmp" := data_of recs]>
               (<[(name (file s) +:+ ".backup") +:+ ".idx" := index_of recs]>
                  (<[name (file s) +:+ ".backup" := data_of recs]> fs)))).
  split; [fs_lookup|]. split; [fs_lookup|]. split; [fs_lookup|].
  split; [fs_lookup|].
  split.
  - intros e He. rewrite He. eexists. split; [reflexivity|]. store_simpl. auto.
  - intros e He1 He2. rewrite He1. store_simpl. rewrite He2.
    eexists. split; [reflexivity|]. store_simpl. auto.
Qed.

Lemma Store_Get_closed_data line s fs :
  closed (file s) = true -> exists e, (Store_Get line s fs).1 = Err e.
Proof.
  intros Hc. unfold Store_Get, read_line.
  destruct (lineCount s <=? line); [eexists; reflexivity|].
  destruct (Seek _ SeekStart (indexFile s) fs) as [[q i1]|e];
    [|eexists; reflexivity].
  store_simpl.
  destruct (ReadFull 16 i1 fs) as [[n [entry|e]] i2]; [|eexists; reflexivity].
  store_simpl. rewrite Seek_closed by assumption. eexists; reflexivity.
Qed.

(** X23. A [Polish] whose close of the live data file reports an error
    leaves a dead store over intact files. On a store built through its
    operations whose records are all at most [1<<20] bytes long, when
    closing the data file reports [e]: [Polish] returns the
    failed-to-close-original-data-file error wrapping [e]; the data file and
    the index file hold the same bytes as before (nothing was renamed); the
    two temporaries, holding the rewritten files, are left behind; and the
    data handle of the store is closed, so every later [Set] fails at its
    seek without writing and every later [Get] returns an error. *)
Theorem Polish_close_failure_leaves_dead_store (cr : string -> option ioerr)
    (recs : list (list byte)) (s : Store) (fs : gmap string (list byte))
    (e : ioerr) :
  store_inv recs s fs -> Forall small20 recs ->
  cr (name (file s)) = Some e ->
  exists s' fs',
    Store_Polish cr s fs
    = (Some (Wrapf "failed to close original data file: %v" [] (IOError e)),
       s', fs')
    /\ fs' !! name (file s) = fs !! name (file s)
    /\ fs' !! name (indexFile s) = fs !! name (indexFile s)
    /\ fs' !! (name (file s) +:+ ".tmp") = fs !! name (file s)
    /\ fs' !! (name (file s) +:+ ".idx.tmp") = fs !! name (indexFile s)
    /\ lineCount s' = lineCount s
    /\ (forall P,
          Store_Set P s' fs'
          = (Err (Wrapf "failed to seek to end of data file: %v" []
                    (IOError ErrClosed)), s', fs'))
    /\ forall line, exists e', (Store_Get line s' fs').1 = Err e'.
Proof.
  intros Hinv Hsm He.
  destruct (Store_Polish_close_err cr recs s fs Hinv Hsm)
    as (fsT&Hd&Hi&Ht&Hti&Hdata&_).
  destruct (Hdata e He) as (s'&HP&Hcf&_&Hl).
  destruct Hinv. rewrite si_data0, si_index0, si_name0.
  exists s', fsT. split; [exact HP|].
  split; [exact Hd|]. split; [exact Hi|]. split; [exact Ht|].
  split; [exact Hti|]. split; [exact Hl|].
  split.
  - intros P. unfold Store_Set. now rewrite Seek_closed by assumption.
  - intros line. now apply Store_Get_closed_data.
Qed.

Lemma Polish_close_failure_leaves_dead_store_witness :
  exists s1 fs1 s' fs',
    Store_Set value1 store_fresh fs_fresh = (Ok 0, s1, fs1)
    /\ Store_Polish (fun _ => Some (EIO 5)) s1 fs1
       = (Some (Wrapf "failed to close original data file: %v" []
                  (IOError (EIO 5))), s', fs')
    /\ fs' !! name (file s1) = fs1 !! name (file s1)
    /\ exists e', (Store_Get 0 s' fs').1 = Err e'.
Proof.
  destruct Set_value1 as (s1&fs1&HS1&_&Hinv1).
  destruct (Polish_close_failure_leaves_dead_store (fun _ => Some (EIO 5))
              [value1] s1 fs1 (EIO 5) Hinv1 small20_value1 eq_refl)
    as (s'&fs'&HP&Hd&_&_&_&_&_&HG).
  exists s1, fs1, s', fs'. split; [exact HS1|]. split; [exact HP|].
  split; [exact Hd|exact (HG 0)].
Defined.

(** ** Sequences of calls *)














(** ** Opening a data file whose index file is gone *)

Lemma NewStore_missing_index path fs d :
  fs !! path = Some d -> fs !! (path +:+ ".idx") = None ->
  NewStore path fs = NewStore path (<[path +:+ ".idx" := []]> fs).
Proof.
  intros Hd Hi. pose proof (idx_path_ne path).
  unfold NewStore, OpenFile.
  rewrite Hd, Hi, lookup_insert_ne, Hd, lookup_insert_eq by auto.
  reflexivity.
Qed.

(** X25. [NewStore] never rebuilds a missing index. When the data file
    holds at least one record and the index file does not exist,
    [NewStore] creates an empty index file, then fails with the
    index-size-mismatch error (size 0 against [16 * length recs]): the store
    cannot be opened, the data file is untouched, and the empty index file
    stays behind. *)
Theorem NewStore_does_not_rebuild_index (recs : list (list byte))
    (path : string) (fs : gmap string (list byte)) :
  fs !! path = Some (data_of recs) -> fs !! (path +:+ ".idx") = None ->
  recs <> [] ->
  Forall (fun p => len p < 2 ^ 32) recs ->
  len (data_of recs) <= max_off -> 16 * len recs <= max_off ->
  NewStore path fs
  = Some (Err (Wrapf "failed to count lines: %v" []
                 (Errorf "index file size %d does not match expected %d"
                    [0; 16 * len recs])),
          <[path +:+ ".idx" := []]> fs).
Proof.
  intros Hd Hi Hne H32 Hdm Him. pose proof (idx_path_ne path).
  rewrite (NewStore_missing_index path fs _ Hd Hi).
  rewrite (NewStore_existing recs path _ [])
    by (first [assumption | fs_lookup]).
  change (len (@nil byte)) with 0.
  assert (0 < len recs)
    by (destruct recs; [congruence|rewrite len_cons; pose proof (len_nonneg recs); lia]).
  destruct (Z.eqb_spec 0 (len recs * 16)); [lia|].
  now rewrite (Z.mul_comm 16).
Qed.

Lemma NewStore_does_not_rebuild_index_witness :
  NewStore "d" (<["d" := make_record 1 [Byte.x61]]> ∅)
  = Some (Err (Wrapf "failed to count lines: %v" []
                 (Errorf "index file size %d does not match expected %d"
                    [0; 16])),
          <["d.idx" := []]> (<["d" := make_record 1 [Byte.x61]]> ∅)).
Proof.
  apply (NewStore_does_not_rebuild_index [[Byte.x61]] "d"
           (<["d" := make_record 1 [Byte.x61]]> ∅)).
  - reflexivity.
  - reflexivity.
  - discriminate.
  - constructor; [now vm_compute|constructor].
  - now vm_compute.
  - now vm_compute.
Defined.

(** ** Reading a record whose payload is cut short *)

(** X26. [Get] reports a payload cut short. For an ordinal below
    [lineCount] whose index entry holds the offset of a record header
    declaring [L] bytes, [L] at most [1<<20], followed by fewer bytes than
    that up to the end of the data file (at least one), [Get] fails with the
    failed-to-read-value error naming the ordinal, the bytes read and [L],
    wrapping [io.ErrUnexpectedEOF]: what the scan of [NewStore] let through
    is found when the line is read. *)
Theorem Get_reports_cut_payload (line ord L : Z) (part ipre ipost pre : list byte)
    (s : Store) (fs : gmap string (list byte)) :
  closed (file s) = false -> closed (indexFile s) = false ->
  0 <= line < lineCount s ->
  fs !! name (indexFile s)
  = Some (ipre ++ make_indexEntry ord (len pre) ++ ipost) ->
  len ipre = line * 16 ->
  len (ipre ++ make_indexEntry ord (len pre) ++ ipost) <= max_off ->
  fs !! name (file s) = Some (pre ++ [Byte.x00] ++ le_split 4 L ++ part) ->
  len (pre ++ [Byte.x00] ++ le_split 4 L ++ part) <= max_off ->
  0 < len part < L -> L <= 2 ^ 20 ->
  (Store_Get line s fs).1
  = Err (Wrapf "failed to read value at line %d (read %d/%d bytes): %v"
           [line; len part; L] (IOError ErrUnexpectedEOF)).
Proof.
  intros Hcf Hci Hline Hi Hli Hmi Hd Hmd Hpart HL.
  pose proof (len_nonneg ipre). pose proof (len_nonneg pre).
  pose proof (len_nonneg ipost). pose proof max_off_lt.
  set (ci := ipre ++ make_indexEntry ord (len pre) ++ ipost) in *.
  set (cd := pre ++ [Byte.x00] ++ le_split 4 L ++ part) in *.
  assert (len ci = len ipre + 16 + len ipost) as Hlci
    by (unfold ci; autorewrite with len; lia).
  assert (len cd = len pre + 5 + len part) as Hlcd
    by (unfold cd; autorewrite with len; lia).
  unfold Store_Get. destruct (Z.leb_spec (lineCount s) line); [lia|].
  unfold read_line.
  rewrite uint64_small, int64_small by lia.
  rewrite (Seek_start_ok _ _ _ ci) by (auto; lia). store_simpl.
  rewrite <- (len_make_indexEntry ord (len pre)) at 1.
  rewrite (ReadFull_ok _ ipre ipost _ fs ci) by io_side.
  store_simpl. rewrite drop_8_indexEntry.
  rewrite uint64_small, int64_small by lia.
  rewrite (Seek_start_ok _ _ _ cd) by (auto; lia).
  unfold read_record.
  change [Byte.x00] with (le_split 1 0) in cd.
  change (binary_Read 1) with (binary_Read (Z.of_nat 1)).
  change (binary_Read 4) with (binary_Read (Z.of_nat 4)).
  rewrite (binary_Read_ok 1 0 pre (le_split 4 L ++ part) _ fs cd)
    by (first [io_side | lia]).
  rewrite Z.eqb_refl. cbn [negb].
  rewrite (binary_Read_ok 4 L (pre ++ le_split 1 0) part _ fs cd)
    by (first [io_side | subst cd; now rewrite <- !app_assoc | lia]).
  destruct (Z.ltb_spec (2 ^ 20) L); [lia|].
  rewrite (ReadFull_short L part (pre ++ le_split 1 0 ++ le_split 4 L) _ fs cd)
    by (first [io_side | subst cd; now rewrite <- !app_assoc
              | autorewrite with len; store_simpl; lia | lia]).
  reflexivity.
Qed.

Lemma Get_reports_cut_payload_witness :
  (Store_Get 0
     (mkStore (mkFile "d" 0 true false) (mkFile "d.idx" 0 true false) 1)
     fs_truncated).1
  = Err (Wrapf "failed to read value at line %d (read %d/%d bytes): %v"
           [0; 1; 5] (IOError ErrUnexpectedEOF)).
Proof.
  apply (Get_reports_cut_payload 0 0 5 [Byte.x61] [] [] []).
  - reflexivity.
  - reflexivity.
  - now vm_compute.
  - reflexivity.
  - reflexivity.
  - now vm_compute.
  - reflexivity.
  - now vm_compute.
  - now vm_compute.
  - now vm_compute.
Defined.
